(** * oplogc: the oplog consumer, its SSE decoder and its in-flight ledger

    A shallow embedding of the Go package [oplogc]:
    - [ife.go]        the in-flight event ledger ([inFlightEvents]);
    - [operation.go]  the [Operation] record and its validity check;
    - the SSE decoder ([decoder.next]);
    - the consumer ([Consumer]): [connect], [loadLastEventID], the read loop
      [readStream] and the acknowledgement loop started by [Start].

    The consumer calls the ledger and the decoder by their exported names
    ([NewInFlightEvents], [Push], [Pull], [NewDecoder], [Next]) and the
    decoder calls [Operation.Validate] as [validate]: these are the functions
    of [ife.go], of the decoder and of [operation.go].

    Go strings are byte strings: they are modelled by [string] (a list of
    8-bit [ascii]).  Go [int] and [time.Duration] are 64-bit integers and are
    modelled by [Z]: the doubling of a duration is written with its
    wrap-around, and an index stays under the length of its slice.  A Go
    [error] result is an [option error]. *)

From Stdlib Require Import String Ascii List ZArith Lia Bool.
Import ListNotations.
Local Open Scope string_scope.
Local Open Scope Z_scope.

(** ** Errors of the package *)

Inductive error : Type :=
| ErrIncompleteEvent                       (* "incomplete event" *)
| ErrInvalidEvent                          (* "invalid event" *)
| ErrConnectionClosed                      (* "connection closed" *)
| ErrAccessDenied                          (* "invalid credentials" *)
| ErrResumeFailed                          (* "resume failed" *)
| ErrWritingState                          (* "writing state file failed" *)
| ErrInvalidStateData                      (* errors.New("state file contains invalid data") *)
| ErrHTTP (status : Z) (message : string)  (* fmt.Errorf("HTTP error %d: %s", status, message) *)
| ErrExternal (msg : string).              (* an error of os, io or net/http *)

(** ** Byte strings *)

Module Strings.

(** The line feed, Go's ['\n']. *)
Definition LF : ascii := "010"%char.

(** [unlines ls] is the text made of the lines [ls], each one ended by a
    line feed. *)
Fixpoint unlines (ls : list string) : string :=
  match ls with
  | [] => EmptyString
  | l :: ls' => l ++ String LF (unlines ls')
  end.

(** [strings.HasPrefix(s, ":")] *)
Definition HasPrefix_colon (s : string) : bool :=
  match s with
  | String c _ => Ascii.eqb c ":"%char
  | EmptyString => false
  end.

(** [strings.TrimPrefix(s, " ")] *)
Definition TrimPrefix_space (s : string) : string :=
  match s with
  | String c s' => if Ascii.eqb c " "%char then s' else s
  | EmptyString => EmptyString
  end.

(** [strings.TrimSuffix(s, "\n")] *)
Fixpoint TrimSuffix_LF (s : string) : string :=
  match s with
  | EmptyString => EmptyString
  | String c EmptyString => if Ascii.eqb c LF then EmptyString else s
  | String c s' => String c (TrimSuffix_LF s')
  end.

(** [strings.SplitN(s, ":", 2)]: one section when [s] holds no colon, else
    the text before the first colon and the text after it. *)
Fixpoint SplitN_colon_2 (s : string) : list string :=
  match s with
  | EmptyString => [EmptyString]
  | String c s' =>
      if Ascii.eqb c ":"%char then [EmptyString; s']
      else match SplitN_colon_2 s' with
           | a :: rest => String c a :: rest
           | [] => []
           end
  end.

(** [bufio.Reader.ReadString('\n')] on a reader whose remaining input is
    [r]: the bytes up to and including the first line feed, and the input
    left.  When the input ends (or the read fails) before a line feed the
    bytes read so far are returned with an error and nothing is left. *)
Fixpoint ReadString (r : string) : string * option error * string :=
  match r with
  | EmptyString => (EmptyString, Some (ErrExternal "EOF"), EmptyString)
  | String c r' =>
      if Ascii.eqb c LF then (String c EmptyString, None, r')
      else let '(line, err, rest) := ReadString r' in
           (String c line, err, rest)
  end.

End Strings.

(** ** ife.go: the in-flight event ledger *)

Module Ledger.

(** [inFlightEvents]: the embedded [sync.RWMutex] and the list of ids.
    [mu] is [true] while a caller holds the write lock of the embedded
    mutex across calls ([Consumer.readStream] takes it after a reset and
    the acknowledgement loop releases it).  [count], [push] and [pull] take
    the lock for the time of the call: the functions below are their
    effect once they hold it, and they leave [mu] as it was. *)
Record inFlightEvents : Type := { mu : bool; ids : list string }.

(** [newInFlightEvents] *)
Definition newInFlightEvents : inFlightEvents := {| mu := false; ids := [] |}.

(** [count] *)
Definition count (ife : inFlightEvents) : Z := Z.of_nat (length (ids ife)).

(** The loop of [push]: is some [eid] of the list equal to [id]? *)
Fixpoint already_in (id : string) (l : list string) : bool :=
  match l with
  | [] => false
  | eid :: l' => if String.eqb eid id then true else already_in id l'
  end.

(** [push] *)
Definition push (id : string) (ife : inFlightEvents) : inFlightEvents :=
  if already_in id (ids ife) then ife
  else {| mu := mu ife; ids := ids ife ++ [id] |}.

(** The loop of [pull], from index [i] on: the index of the first [eid]
    equal to [id] (or -1) and the list without that element. *)
Fixpoint pull_from (i : Z) (id : string) (l : list string) : Z * list string :=
  match l with
  | [] => (-1, [])
  | eid :: l' =>
      if String.eqb eid id then (i, l')
      else let '(index, rest) := pull_from (i + 1) id l' in (index, eid :: rest)
  end.

(** [pull] *)
Definition pull (id : string) (ife : inFlightEvents) : Z * inFlightEvents :=
  let '(index, rest) := pull_from 0 id (ids ife) in
  (index, {| mu := mu ife; ids := rest |}).

(** [sync.RWMutex.Lock] and [Unlock] on the embedded mutex, for a caller
    that keeps the lock across calls. *)
Definition Lock (ife : inFlightEvents) : inFlightEvents :=
  {| mu := true; ids := ids ife |}.
Definition Unlock (ife : inFlightEvents) : inFlightEvents :=
  {| mu := false; ids := ids ife |}.

End Ledger.

(** ** operation.go *)

(** [OperationData]; [Timestamp] (a [time.Time]) is kept as its Unix time in
    nanoseconds. *)
Record OperationData : Type := {
  ObjectID : string;
  ObjectType : string;
  Ref : string;
  Timestamp : Z;
  Parents : list string
}.

(** [Operation]; the [ack] channel is part of the consumer's state. *)
Record Operation : Type := {
  ID : string;
  Event : string;
  Data : option OperationData
}.

(** [Operation.Validate] *)
Definition Validate (o : Operation) : bool :=
  if String.eqb (Event o) EmptyString then false
  else if match Data o with None => true | Some _ => false end
          && negb (String.eqb (Event o) "reset")
          && negb (String.eqb (Event o) "live")
       then false
       else true.

(** ** The SSE decoder *)

Module SSE.
Section Decoder.

(** [json.Unmarshal([]byte(value), &op.Data)] of the Go library
    [encoding/json]: from the text and the current [op.Data], the new
    [op.Data] and whether an error is returned. *)
Variable Unmarshal : string -> option OperationData -> option OperationData * bool.

(** [decoder]: a [bufio.Reader], that is the input not read yet. *)
Definition decoder : Type := string.

(** [newDecoder] *)
Definition newDecoder (r : string) : decoder := r.

Definition setID (v : string) (op : Operation) : Operation :=
  {| ID := v; Event := Event op; Data := Data op |}.
Definition setEvent (v : string) (op : Operation) : Operation :=
  {| ID := ID op; Event := v; Data := Data op |}.
Definition setData (v : option OperationData) (op : Operation) : Operation :=
  {| ID := ID op; Event := Event op; Data := v |}.

(** The [for] loop of [next].  Its variables are [op], [started] and [err];
    every pass starts by overwriting [err] with the result of
    [ReadString].  The [break] of the [data] case leaves the [switch]
    only, so the loop goes on with [err] set to [ErrInvalidEvent].
    [fuel] bounds the number of passes; [None] is out of fuel. *)
Fixpoint next_loop (fuel : nat) (d : decoder) (op : Operation)
         (started : bool) (err : option error)
  : option (option error * Operation * decoder) :=
  match fuel with
  | O => None
  | S fuel' =>
      let '(line, rerr, d') := Strings.ReadString d in
      match rerr with
      | Some _ => Some (Some ErrConnectionClosed, op, d')
      | None =>
          if String.eqb line (String Strings.LF EmptyString) then
            if started then Some (None, op, d')
            else next_loop fuel' d' op started None
          else
            let line := Strings.TrimSuffix_LF line in
            if Strings.HasPrefix_colon line then
              next_loop fuel' d' op started None
            else
              let sections := Strings.SplitN_colon_2 line in
              let field := nth 0 sections EmptyString in
              let value :=
                if Nat.eqb (length sections) 2
                then Strings.TrimPrefix_space (nth 1 sections EmptyString)
                else EmptyString in
              if String.eqb field "id" then
                next_loop fuel' d' (setID value op) true None
              else if String.eqb field "event" then
                next_loop fuel' d' (setEvent value op) true None
              else if String.eqb field "data" then
                let '(data, failed) := Unmarshal value (Data op) in
                next_loop fuel' d' (setData data op) true
                          (if failed then Some ErrInvalidEvent else None)
              else
                next_loop fuel' d' op true None
      end
  end.

(** The two tests that follow the loop. *)
Definition next_checks (err : option error) (op : Operation) : option error :=
  let err :=
    match err with
    | None => if String.eqb (Event op) EmptyString
              then Some ErrIncompleteEvent else None
    | Some _ => err
    end in
  if negb (Validate op) then Some ErrInvalidEvent else err.

(** [decoder.next]: the error returned, the scratch operation and the
    decoder after the call.  Each pass that goes on has read a line feed,
    so one pass more than the length of the input is enough. *)
Definition next (d : decoder) (op : Operation)
  : option (option error * Operation * decoder) :=
  let op := setData None (setEvent EmptyString op) in
  match next_loop (S (String.length d)) d op false None with
  | Some (err, op', d') => Some (next_checks err op', op', d')
  | None => None
  end.

(** [n] calls of [next] in a row on one decoder and one scratch
    operation, whatever each call returns: the result of the last one
    ([start] when [n] is 0). *)
Fixpoint next_times (n : nat) (start : option error * Operation * decoder)
  : option (option error * Operation * decoder) :=
  match n with
  | O => Some start
  | S n' =>
      let '(_, op, d) := start in
      match next d op with
      | Some res => next_times n' res
      | None => None
      end
  end.

End Decoder.

(** A decoder of payloads that knows two texts: [null], which sets the
    pointer to nil, and [{}], which leaves an existing payload as it is and
    allocates a zero one otherwise.  [encoding/json] does the same on these
    two; every other text is refused here, the payload left as it was. *)
Definition Unmarshal_minimal (value : string) (data : option OperationData)
  : option OperationData * bool :=
  if String.eqb value "null" then (None, false)
  else if String.eqb value "{}" then
    (match data with
     | Some p => Some p
     | None => Some {| ObjectID := EmptyString; ObjectType := EmptyString;
                       Ref := EmptyString; Timestamp := 0; Parents := [] |}
     end, false)
  else (data, true).

End SSE.

(** ** The consumer *)

(** [Filter] *)
Record Filter : Type := { Types : list string; FilterParents : list string }.

(** [Options] *)
Record Options : Type := {
  StateFile : string;
  AllowReplication : bool;
  Password : string;
  OptFilter : Filter
}.

(** [Consumer].  [body] is the text still to be read from the current
    response body.  The channels [ack] and [stop] and the lock [mu] belong to
    the goroutines: they appear in the steps of the system further down. *)
Record Consumer : Type := {
  url : string;
  options : Options;
  lastId : string;
  saved : bool;
  processing : bool;
  body : string;
  ife : Ledger.inFlightEvents
}.

Definition set_lastId (id : string) (sv : bool) (c : Consumer) : Consumer :=
  {| url := url c; options := options c; lastId := id; saved := sv;
     processing := processing c; body := body c; ife := ife c |}.
Definition set_processing (p : bool) (c : Consumer) : Consumer :=
  {| url := url c; options := options c; lastId := lastId c; saved := saved c;
     processing := p; body := body c; ife := ife c |}.
Definition set_body (b : string) (c : Consumer) : Consumer :=
  {| url := url c; options := options c; lastId := lastId c; saved := saved c;
     processing := processing c; body := b; ife := ife c |}.
Definition set_ife (l : Ledger.inFlightEvents) (c : Consumer) : Consumer :=
  {| url := url c; options := options c; lastId := lastId c; saved := saved c;
     processing := processing c; body := body c; ife := l |}.

(** [Consumer.LastId] *)
Definition LastId (c : Consumer) : string := lastId c.

(** [Consumer.SetLastId] *)
Definition SetLastId (id : string) (c : Consumer) : Consumer :=
  set_lastId id false c.

(** *** connect *)

(** What [connect] reads of the response: [res.StatusCode],
    [res.Header.Get("Last-Event-ID")] (empty when the header is absent) and
    the text of [res.Body]. *)
Record Response : Type := {
  StatusCode : Z;
  LastEventID : string;
  ResponseBody : string
}.

(** What the transport does with the request of one [connect]:
    [http.NewRequest] fails, [c.http.Do] fails, or a response comes back. *)
Inductive RoundTrip : Type :=
| NewRequestFails (e : error)
| DoFails (e : error)
| Responds (res : Response).

(** [Consumer.connect] *)
Definition connect (t : RoundTrip) (c : Consumer) : Consumer * option error :=
  let c := set_body EmptyString c in
  match t with
  | NewRequestFails e => (c, Some e)
  | DoFails e => (c, Some e)
  | Responds res =>
      let lastId := LastId c in
      if negb (String.eqb lastId EmptyString)
         && negb (String.eqb (LastEventID res) lastId)
      then (c, Some ErrResumeFailed)
      else if Z.eqb (StatusCode res) 403 || Z.eqb (StatusCode res) 401
      then (c, Some ErrAccessDenied)
      else if negb (Z.eqb (StatusCode res) 200)
      then (c, Some (ErrHTTP (StatusCode res) (ResponseBody res)))
      else (set_body (ResponseBody res) c, None)
  end.

(** *** loadLastEventID *)

(** What the file system answers for the path of the state file: [os.Stat]
    fails with an error of [os.IsNotExist], [os.Stat] fails otherwise,
    [ioutil.ReadFile] fails, or the content is read. *)
Inductive StateFileStatus : Type :=
| NotExist
| StatFails (e : error)
| ReadFails (e : error)
| Content (content : string).

Definition is_digit (c : ascii) : bool :=
  (48 <=? Z.of_nat (nat_of_ascii c)) && (Z.of_nat (nat_of_ascii c) <=? 57).
Definition is_hex (c : ascii) : bool :=
  is_digit c
  || ((97 <=? Z.of_nat (nat_of_ascii c)) && (Z.of_nat (nat_of_ascii c) <=? 102)).

Fixpoint all_chars (p : ascii -> bool) (s : string) : bool :=
  match s with
  | EmptyString => true
  | String c s' => p c && all_chars p s'
  end.

(** A whole text made of between [lo] and [hi] characters of the class [p]:
    the anchored pattern [^p{lo,hi}$]. *)
Definition class_repeat (p : ascii -> bool) (lo hi : nat) (s : string) : bool :=
  Nat.leb lo (String.length s) && Nat.leb (String.length s) hi && all_chars p s.

(** [regexp.Match("^(?:[0-9]{0,13}|[0-9a-f]{24})$", content)] *)
Definition state_pattern (content : string) : bool :=
  class_repeat is_digit 0 13 content || class_repeat is_hex 24 24 content.

(** The pattern in the words of the specification: 1 to 13 decimal digits,
    or exactly 24 hexadecimal characters. *)
Definition state_pattern_as_specified (content : string) : bool :=
  class_repeat is_digit 1 13 content || class_repeat is_hex 24 24 content.

(** [Consumer.loadLastEventID]; [fs] is the file system. *)
Definition loadLastEventID (fs : string -> StateFileStatus) (c : Consumer)
  : string * option error :=
  if String.eqb (StateFile (options c)) EmptyString then (EmptyString, None)
  else
    match fs (StateFile (options c)) with
    | NotExist =>
        (if AllowReplication (options c) then "0" else EmptyString, None)
    | StatFails e => (EmptyString, Some e)
    | ReadFails e => (EmptyString, Some e)
    | Content content =>
        (content,
         if negb (state_pattern content) then Some ErrInvalidStateData else None)
    end.

(** *** The goroutines of Start *)

(** [time.Second], a [time.Duration]: a number of nanoseconds. *)
Definition Second : Z := 1000000000.

(** The value of a 64-bit signed integer after an overflow. *)
Definition wrap64 (z : Z) : Z := (z + 2 ^ 63) mod 2 ^ 64 - 2 ^ 63.

(** [if backoff < 30*time.Second { backoff *= 2 }] *)
Definition double_backoff (backoff : Z) : Z :=
  if backoff <? 30 * Second then wrap64 (backoff * 2) else backoff.

(** Where [readStream] stands. *)
Inductive readStreamAt : Type :=
| AtFirstConnect            (* c.connect(), before the loop *)
| AtNext                    (* err := d.Next(&op) *)
| AtPush (op : Operation)   (* c.ife.Push(op.ID) *)
| AtSleep.                  (* time.Sleep(backoff), in the loop of retries *)

(** Where the acknowledgement loop of [Start] stands. *)
Inductive ackLoopAt : Type :=
| AtSelect                  (* case op := <-c.ack *)
| AtPull (op : Operation).  (* c.ife.Pull(op.ID) *)

(** The consumer, its two goroutines and what they have sent so far: the
    operations on [ops], the errors on [errs], and the durations given to
    [time.Sleep], the oldest first. *)
Record System : Type := {
  consumer : Consumer;
  reading : readStreamAt;
  backoff : Z;
  acking : ackLoopAt;
  sent : list Operation;
  reported : list error;
  slept : list Z
}.

(** What one goroutine does next, from outside:
    - [Connect t]: [readStream] runs its first [c.connect()], the transport
      answering [t]; the error is dropped;
    - [NextReturns err op]: [d.Next(&op)] returns [err], leaving the scratch
      operation equal to [op]; an error is sent on [errs];
    - [Push]: [readStream] runs [c.ife.Push(op.ID)], then [c.ife.Lock()] when
      the event is a reset, sends [op] on [ops] and sets [backoff] to one
      second; these are one step here, so the states in which the id is
      pushed and the operation not yet received by the caller are not
      told apart from the state after the sending;
    - [Retry t]: [readStream] sleeps for [backoff], doubles it when it is
      under 30 seconds and runs [c.connect()], the transport answering [t];
      an error is sent on [errs] and the loop of retries goes on;
    - [Ack op]: the acknowledgement loop receives [op] from [c.ack] and
      runs [c.ife.Unlock()] when its event is a reset;
    - [Pull]: the acknowledgement loop runs [c.ife.Pull(op.ID)] and
      [c.SetLastId(op.ID)] when the index is 0. *)
Inductive event : Type :=
| Connect (t : RoundTrip)
| NextReturns (err : option error) (op : Operation)
| Push
| Retry (t : RoundTrip)
| Ack (op : Operation)
| Pull.

(** The outcome of an event: the next state; the goroutine is not at that
    statement; the goroutine waits for the mutex of the ledger; the Go
    runtime aborts the program ([Unlock] of a mutex that is not locked). *)
Inductive outcome : Type :=
| Steps (s : System)
| NotThere
| Blocked
| Fatal.

Definition with_consumer (c : Consumer) (s : System) : System :=
  {| consumer := c; reading := reading s; backoff := backoff s;
     acking := acking s; sent := sent s; reported := reported s;
     slept := slept s |}.
Definition with_reading (r : readStreamAt) (s : System) : System :=
  {| consumer := consumer s; reading := r; backoff := backoff s;
     acking := acking s; sent := sent s; reported := reported s;
     slept := slept s |}.
Definition with_backoff (b : Z) (s : System) : System :=
  {| consumer := consumer s; reading := reading s; backoff := b;
     acking := acking s; sent := sent s; reported := reported s;
     slept := slept s |}.
Definition with_acking (a : ackLoopAt) (s : System) : System :=
  {| consumer := consumer s; reading := reading s; backoff := backoff s;
     acking := a; sent := sent s; reported := reported s; slept := slept s |}.
Definition send_op (op : Operation) (s : System) : System :=
  {| consumer := consumer s; reading := reading s; backoff := backoff s;
     acking := acking s; sent := sent s ++ [op]; reported := reported s;
     slept := slept s |}.
Definition send_err (e : error) (s : System) : System :=
  {| consumer := consumer s; reading := reading s; backoff := backoff s;
     acking := acking s; sent := sent s; reported := reported s ++ [e];
     slept := slept s |}.
Definition sleep (d : Z) (s : System) : System :=
  {| consumer := consumer s; reading := reading s; backoff := backoff s;
     acking := acking s; sent := sent s; reported := reported s;
     slept := slept s ++ [d] |}.

Definition is_reset (op : Operation) : bool := String.eqb (Event op) "reset".

(** The steps of [readStream]. *)
Definition step_Connect (t : RoundTrip) (s : System) : outcome :=
  match reading s with
  | AtFirstConnect =>
      let '(c, _) := connect t (consumer s) in
      Steps (with_reading AtNext (with_consumer c s))
  | _ => NotThere
  end.

Definition step_NextReturns (err : option error) (op : Operation) (s : System)
  : outcome :=
  match reading s with
  | AtNext =>
      match err with
      | Some e => Steps (with_reading AtSleep (send_err e s))
      | None => Steps (with_reading (AtPush op) s)
      end
  | _ => NotThere
  end.

Definition step_Push (s : System) : outcome :=
  match reading s with
  | AtPush op =>
      if Ledger.mu (ife (consumer s)) then Blocked
      else
        let l := Ledger.push (ID op) (ife (consumer s)) in
        let l := if is_reset op then Ledger.Lock l else l in
        Steps (with_backoff Second
                 (with_reading AtNext
                    (send_op op (with_consumer (set_ife l (consumer s)) s))))
  | _ => NotThere
  end.

Definition step_Retry (t : RoundTrip) (s : System) : outcome :=
  match reading s with
  | AtSleep =>
      let s := sleep (backoff s) s in
      let s := with_backoff (double_backoff (backoff s)) s in
      match connect t (consumer s) with
      | (c, None) => Steps (with_reading AtNext (with_consumer c s))
      | (c, Some e) => Steps (send_err e (with_consumer c s))
      end
  | _ => NotThere
  end.

(** The steps of the acknowledgement loop. *)
Definition step_Ack (op : Operation) (s : System) : outcome :=
  match acking s with
  | AtSelect =>
      if is_reset op then
        if Ledger.mu (ife (consumer s)) then
          Steps (with_acking (AtPull op)
                   (with_consumer
                      (set_ife (Ledger.Unlock (ife (consumer s))) (consumer s)) s))
        else Fatal
      else Steps (with_acking (AtPull op) s)
  | _ => NotThere
  end.

Definition step_Pull (s : System) : outcome :=
  match acking s with
  | AtPull op =>
      if Ledger.mu (ife (consumer s)) then Blocked
      else
        let '(idx, l) := Ledger.pull (ID op) (ife (consumer s)) in
        let c := set_ife l (consumer s) in
        let c := if idx =? 0 then SetLastId (ID op) c else c in
        Steps (with_acking AtSelect (with_consumer c s))
  | _ => NotThere
  end.

Definition step (e : event) (s : System) : outcome :=
  match e with
  | Connect t => step_Connect t s
  | NextReturns err op => step_NextReturns err op s
  | Push => step_Push s
  | Retry t => step_Retry t s
  | Ack op => step_Ack op s
  | Pull => step_Pull s
  end.

(** A run: the events one after the other, up to the first that does not
    step. *)
Fixpoint run (es : list event) (s : System) : outcome :=
  match es with
  | [] => Steps s
  | e :: es' =>
      match step e s with
      | Steps s' => run es' s'
      | o => o
      end
  end.

(** What [Start] does: it panics when a loop is running already; when the
    state file cannot be loaded it sends the error on [errs], a channel
    without buffer that it has just made and that no one else holds yet, so
    it waits there for good and never returns; else it starts the
    goroutines and returns. *)
Inductive started : Type :=
| Panics
| BlocksOnErrs (e : error)
| Running (s : System).

Definition Start (fs : string -> StateFileStatus) (c : Consumer) : started :=
  if processing c then Panics
  else
    let c := set_processing true c in
    match loadLastEventID fs c with
    | (_, Some e) => BlocksOnErrs e
    | (id, None) =>
        Running {| consumer := set_lastId id (saved c) c;
                   reading := AtFirstConnect; backoff := Second;
                   acking := AtSelect; sent := []; reported := []; slept := [] |}
    end.

(** *** Events of a run, for the statements *)

(** The operation [op] comes out of the decoder and is pushed and sent. *)
Definition deliver (op : Operation) : list event := [NextReturns None op; Push].

(** The caller acknowledges [op] and the loop handles it. *)
Definition acknowledge (op : Operation) : list event := [Ack op; Pull].

(** [Options{}], the options at their zero value. *)
Definition no_options : Options :=
  {| StateFile := EmptyString; AllowReplication := false;
     Password := EmptyString;
     OptFilter := {| Types := []; FilterParents := [] |} |}.

(** A consumer that has just subscribed: [Subscribe] leaves everything but
    the URL, the options and the empty ledger at its zero value. *)
Definition subscribed (u : string) (o : Options) : Consumer :=
  {| url := u; options := o; lastId := EmptyString; saved := false;
     processing := false; body := EmptyString;
     ife := Ledger.newInFlightEvents |}.

(** A system in which the read loop is about to decode and the
    acknowledgement loop is waiting. *)
Definition streaming (c : Consumer) : System :=
  {| consumer := c; reading := AtNext; backoff := Second; acking := AtSelect;
     sent := []; reported := []; slept := [] |}.

(** Is the event the acknowledgement of a reset? *)
Definition is_reset_ack (e : event) : bool :=
  match e with
  | Ack op => is_reset op
  | _ => false
  end.

(** Is the event the push (and the sending) of an operation? *)
Definition is_push (e : event) : bool :=
  match e with
  | Push => true
  | _ => false
  end.

(** Is the event a sleep followed by a connection attempt? *)
Definition is_retry (e : event) : bool :=
  match e with
  | Retry _ => true
  | _ => false
  end.

(** A run of failures: the decoder fails, a first connection attempt
    fails, the second one succeeds, the decoder fails again and a third
    connection attempt fails. *)
Definition failures_then_retries : list event :=
  [NextReturns (Some ErrConnectionClosed)
               {| ID := EmptyString; Event := EmptyString; Data := None |};
   Retry (DoFails (ErrExternal "connection refused"));
   Retry (Responds {| StatusCode := 200; LastEventID := EmptyString;
                      ResponseBody := EmptyString |});
   NextReturns (Some ErrConnectionClosed)
               {| ID := EmptyString; Event := EmptyString; Data := None |};
   Retry (DoFails (ErrExternal "connection refused"))].

(** A read loop that has decoded an operation after four sleeps in a row
    and is about to push it. *)
Definition about_to_push : System :=
  {| consumer := subscribed "http://oplog" no_options;
     reading := AtPush {| ID := "1"; Event := "live"; Data := None |};
     backoff := 16 * Second; acking := AtSelect; sent := [];
     reported := [ErrConnectionClosed]; slept := [Second] |}.

(** The number of sleeps of a run. *)
Definition retries (es : list event) : nat := length (filter is_retry es).

(** The [k]-th delay of a row of failures as the code computes it: one
    second doubled [k] times, the doubling stopping at the first value that
    is not under 30 seconds. *)
Definition delay (k : nat) : Z :=
  Second * (if Nat.ltb k 5 then 2 ^ Z.of_nat k else 32).

(** The [k]-th delay in the words of the specification: doubling from one
    second and capped at 30 seconds. *)
Definition delay_as_specified (k : nat) : Z :=
  Second * Z.min (2 ^ Z.of_nat k) 30.

(** *** Ids of a stream, for the statements *)

(** The lines of a text that are ended by a line feed, without it. *)
Fixpoint complete_lines (s : string) : list string :=
  match s with
  | EmptyString => []
  | String c s' =>
      if Ascii.eqb c Strings.LF then EmptyString :: complete_lines s'
      else match complete_lines s' with
           | [] => []
           | l :: ls => String c l :: ls
           end
  end.

(** The value of a line whose field name is [id]. *)
Definition id_line (line : string) : option string :=
  match Strings.SplitN_colon_2 line with
  | [field] => if String.eqb field "id" then Some EmptyString else None
  | [field; v] =>
      if String.eqb field "id" then Some (Strings.TrimPrefix_space v) else None
  | _ => None
  end.

(** What one line does to the id. *)
Definition id_after (id line : string) : string :=
  match id_line line with Some v => v | None => id end.

(** The value of the most recent [id] line of a text, [init] when it has
    none. *)
Definition most_recent_id (text : string) (init : string) : string :=
  fold_left id_after (complete_lines text) init.

(** The text read so far is made of complete lines, or nothing is left. *)
Definition closed (consumed rest : string) : Prop :=
  (forall x, complete_lines (consumed ++ x)%string
             = (complete_lines consumed ++ complete_lines x)%list)
  \/ rest = EmptyString.

(** ** The rest of the package *)

(** *** Subscribe and the filters *)

(** [strings.Join(l, ",")] *)
Fixpoint Join_comma (l : list string) : string :=
  match l with
  | [] => EmptyString
  | [a] => a
  | a :: l' => a ++ String ","%char (Join_comma l')
  end.

(** [strings.Split(s, ",")]: the texts between the commas, a single empty
    text for the empty text. *)
Fixpoint Split_comma (s : string) : list string :=
  match s with
  | EmptyString => [EmptyString]
  | String c s' =>
      if Ascii.eqb c ","%char then EmptyString :: Split_comma s'
      else match Split_comma s' with
           | a :: rest => String c a :: rest
           | [] => [String c EmptyString]
           end
  end.

(** The query string that [Subscribe] builds in [qs]. *)
Definition query_string (f : Filter) : string :=
  let qs := EmptyString in
  let qs :=
    if Nat.ltb 0 (length (FilterParents f)) then
      let parents := Join_comma (FilterParents f) in
      if negb (String.eqb parents EmptyString)
      then (qs ++ "?parents=") ++ parents
      else qs
    else qs in
  if Nat.ltb 0 (length (Types f)) then
    let types := Join_comma (Types f) in
    if negb (String.eqb types EmptyString) then
      let qs := if String.eqb qs EmptyString then qs ++ "?" else qs ++ "&" in
      (qs ++ "types=") ++ types
    else qs
  else qs.

(** [Subscribe] *)
Definition Subscribe (u : string) (o : Options) : Consumer :=
  subscribed (u ++ query_string (OptFilter o)) o.

(** The filter that the command [oplog-tail] makes of its flags [-types]
    and [-parents]. *)
Definition tail_filter (types parents : string) : Filter :=
  {| Types := Split_comma types; FilterParents := Split_comma parents |}.

(** *** The state file and its periodic saving *)

(** What [ioutil.WriteFile] does to the state file: it writes the content,
    or it fails and leaves the file in some state. *)
Inductive WriteOutcome : Type :=
| Written
| WriteFails (e : error) (after : StateFileStatus).

(** A file system after a change at one path. *)
Definition fs_set (path : string) (st : StateFileStatus)
           (fs : string -> StateFileStatus) : string -> StateFileStatus :=
  fun p => if String.eqb p path then st else fs p.

(** [Consumer.saveLastEventID] *)
Definition saveLastEventID (w : WriteOutcome) (fs : string -> StateFileStatus)
           (c : Consumer) (id : string)
  : (string -> StateFileStatus) * option error :=
  match w with
  | Written => (fs_set (StateFile (options c)) (Content id) fs, None)
  | WriteFails e after => (fs_set (StateFile (options c)) after fs, Some e)
  end.

(** One tick of [periodicStateSaving], first part: under the read lock,
    [saved] and [lastId] are read; nothing more is done when [saved] is
    set. *)
Definition tick_read (c : Consumer) : option string :=
  if saved c then None else Some (lastId c).

(** One tick, second part, for the [lastId] read before: the file is
    written, a failure is sent on [errs] as [ErrWritingState], and under
    the lock [saved] becomes [lastId == c.lastId]. *)
Definition tick_write (w : WriteOutcome) (read : string)
           (fs : string -> StateFileStatus) (c : Consumer)
  : (string -> StateFileStatus) * Consumer * list error :=
  let '(fs', err) := saveLastEventID w fs c read in
  (fs',
   set_lastId (lastId c) (String.eqb read (lastId c)) c,
   match err with Some _ => [ErrWritingState] | None => [] end).

(** One tick during which no other goroutine touches the consumer. *)
Definition tick (w : WriteOutcome) (fs : string -> StateFileStatus)
           (c : Consumer)
  : (string -> StateFileStatus) * Consumer * list error :=
  match tick_read c with
  | None => (fs, c, [])
  | Some read => tick_write w read fs c
  end.

(** *** Fields of a record, for the statements *)

(** The value of a line whose field name is [event]. *)
Definition event_line (line : string) : option string :=
  match Strings.SplitN_colon_2 line with
  | [field] => if String.eqb field "event" then Some EmptyString else None
  | [field; v] =>
      if String.eqb field "event" then Some (Strings.TrimPrefix_space v)
      else None
  | _ => None
  end.

(** What one line does to the event. *)
Definition event_after (ev line : string) : string :=
  match event_line line with Some v => v | None => ev end.

(** The value of the most recent [event] line of a text, [init] when it
    has none. *)
Definition most_recent_event (text : string) (init : string) : string :=
  fold_left event_after (complete_lines text) init.

(** A text without line feed. *)
Definition one_line (s : string) : bool :=
  all_chars (fun c => negb (Ascii.eqb c Strings.LF)) s.

(** A record on the wire: the lines [id], [event] and, with a payload,
    [data], then the blank line. *)
Definition wire_record (id ev : string) (data : option string) : string :=
  Strings.unlines
    (("id: " ++ id)%string :: ("event: " ++ ev)%string
     :: match data with
        | Some json => [("data: " ++ json)%string; EmptyString]
        | None => [EmptyString]
        end).

(** *** Runs, for the statements *)

(** The ledger of a system. *)
Definition ledger_ids (s : System) : list string := Ledger.ids (ife (consumer s)).

(** The mutex of the ledger of a system. *)
Definition ledger_locked (s : System) : bool := Ledger.mu (ife (consumer s)).

(** The calls of [push] and [pull] on a ledger. *)
Inductive ledger_call : Type :=
| CallPush (id : string)
| CallPull (id : string).

Definition call (k : ledger_call) (l : Ledger.inFlightEvents)
  : Ledger.inFlightEvents :=
  match k with
  | CallPush id => Ledger.push id l
  | CallPull id => snd (Ledger.pull id l)
  end.

(** The operations that the decoder returns without error in a run. *)
Definition decoded (es : list event) : list Operation :=
  flat_map (fun e => match e with
                     | NextReturns None op => [op]
                     | _ => []
                     end) es.

(** The operation that [readStream] has decoded and not sent yet. *)
Definition pending (s : System) : list Operation :=
  match reading s with
  | AtPush op => [op]
  | _ => []
  end.

(** A sleep of the read loop lasts between 1 and 32 seconds. *)
Definition sleep_in_bounds (d : Z) : Prop := Second <= d <= 32 * Second.

(** The list without its element at index [i]. *)
Definition without_nth (i : nat) (l : list string) : list string :=
  firstn i l ++ skipn (S i) l.

(** * Properties *)

Local Open Scope list_scope.

(** ** The ledger *)

Section LedgerFacts.
Import Ledger.

Lemma already_in_In (id : string) (l : list string) :
  already_in id l = true <-> In id l.
Proof.
  induction l as [|eid l IH]; simpl.
  - split; [discriminate | tauto].
  - destruct (String.eqb_spec eid id) as [->|Hne].
    + split; auto.
    + rewrite IH. split; [auto | intros [H|H]; [congruence | exact H]].
Qed.

Lemma pull_from_absent (i : Z) (id : string) (l : list string) :
  ~ In id l -> pull_from i id l = (-1, l).
Proof.
  revert i. induction l as [|eid l IH]; intros i Hnot; simpl.
  - reflexivity.
  - destruct (String.eqb_spec eid id) as [->|Hne].
    + exfalso. apply Hnot. now left.
    + rewrite IH; [reflexivity|]. intro H. apply Hnot. now right.
Qed.



End LedgerFacts.

(** C9.  For every state of the ledger: pushing an id that is already in it
    leaves the sequence of ids, hence [count], unchanged; pulling an id that
    is not in it returns -1 and leaves the sequence unchanged; pulling the id
    at position 0 returns 0 and removes exactly that id. *)
Theorem ledger_push_pull_laws (ife : Ledger.inFlightEvents) (id : string) :
  (In id (Ledger.ids ife) ->
   Ledger.push id ife = ife
   /\ Ledger.count (Ledger.push id ife) = Ledger.count ife)
  /\ (~ In id (Ledger.ids ife) -> Ledger.pull id ife = (-1, ife))
  /\ (forall rest, Ledger.ids ife = id :: rest ->
      Ledger.pull id ife = (0, {| Ledger.mu := Ledger.mu ife; Ledger.ids := rest |})).
Proof.
  destruct ife as [m l]; simpl. repeat split.
  - unfold Ledger.push; simpl.
    apply already_in_In in H. now rewrite H.
  - unfold Ledger.push; simpl.
    apply already_in_In in H. now rewrite H.
  - intros Hnot. unfold Ledger.pull; simpl.
    now rewrite pull_from_absent.
  - intros rest ->. unfold Ledger.pull; simpl.
    now rewrite String.eqb_refl.
Qed.

Lemma ledger_push_pull_laws_witness :
  (Ledger.push "a" {| Ledger.mu := false; Ledger.ids := ["a"; "b"] |}
   = {| Ledger.mu := false; Ledger.ids := ["a"; "b"] |}
   /\ Ledger.count (Ledger.push "a" {| Ledger.mu := false; Ledger.ids := ["a"; "b"] |}) = 2)
  /\ Ledger.pull "c" {| Ledger.mu := false; Ledger.ids := ["a"; "b"] |}
     = (-1, {| Ledger.mu := false; Ledger.ids := ["a"; "b"] |})
  /\ Ledger.pull "a" {| Ledger.mu := false; Ledger.ids := ["a"; "b"] |}
     = (0, {| Ledger.mu := false; Ledger.ids := ["b"] |}).
Proof.
  split; [|split].
  - apply (ledger_push_pull_laws
             {| Ledger.mu := false; Ledger.ids := ["a"; "b"] |} "a").
    simpl. now left.
  - apply (ledger_push_pull_laws
             {| Ledger.mu := false; Ledger.ids := ["a"; "b"] |} "c").
    simpl. intros [H|[H|H]]; [discriminate | discriminate | exact H].
  - apply (ledger_push_pull_laws
             {| Ledger.mu := false; Ledger.ids := ["a"; "b"] |} "a").
    reflexivity.
Defined.

(** ** The acknowledgement loop and the position *)

Lemma connect_keeps (t : RoundTrip) (c : Consumer) :
  ife (fst (connect t c)) = ife c
  /\ lastId (fst (connect t c)) = lastId c
  /\ saved (fst (connect t c)) = saved c.
Proof.
  unfold connect. destruct t as [e|e|res]; simpl; auto.
  destruct (negb _ && negb _); simpl; auto.
  destruct (_ || _); simpl; auto.
  destruct (negb _); simpl; auto.
Qed.






(** ** The reset and the mutex of the ledger *)

(** While the mutex of the ledger is held, an event other than the
    acknowledgement of a reset leaves the ledger as it is. *)
Lemma step_while_locked (e : event) (s s' : System) :
  Ledger.mu (ife (consumer s)) = true ->
  is_reset_ack e = false ->
  step e s = Steps s' ->
  ife (consumer s') = ife (consumer s).
Proof.
  intros Hmu He Hstep. destruct e as [t|err op| |t|op| ]; simpl in *.
  - unfold step_Connect in Hstep. destruct (reading s); try discriminate.
    pose proof (connect_keeps t (consumer s)) as (K & _).
    destruct (connect t (consumer s)) as [c o].
    injection Hstep as <-. exact K.
  - unfold step_NextReturns in Hstep. destruct (reading s); try discriminate.
    destruct err; injection Hstep as <-; reflexivity.
  - unfold step_Push in Hstep. destruct (reading s); try discriminate.
    rewrite Hmu in Hstep. discriminate.
  - unfold step_Retry in Hstep. destruct (reading s); try discriminate.
    simpl in Hstep.
    pose proof (connect_keeps t (consumer s)) as (K & _).
    destruct (connect t (consumer s)) as [c [err|]];
      injection Hstep as <-; exact K.
  - unfold step_Ack in Hstep. destruct (acking s); try discriminate.
    rewrite He in Hstep. injection Hstep as <-. reflexivity.
  - unfold step_Pull in Hstep. destruct (acking s); try discriminate.
    rewrite Hmu in Hstep. discriminate.
Qed.





(** The acknowledgement loop takes the mutex of the ledger for every pull:
    once it has received the acknowledgement of another operation while the
    mutex is held for a reset, it waits for good, as it is the only one to
    release the mutex. *)
Lemma ack_loop_waits_behind_reset (es : list event) (s s' : System) (x : Operation) :
  Ledger.mu (ife (consumer s)) = true ->
  acking s = AtPull x ->
  run es s = Steps s' ->
  acking s' = AtPull x /\ Ledger.mu (ife (consumer s')) = true.
Proof.
  revert s. induction es as [|e es IH]; intros s Hmu Hat Hrun; simpl in *.
  - injection Hrun as <-. auto.
  - destruct (step e s) as [s1| | |] eqn:Hstep; try discriminate.
    assert (He : is_reset_ack e = false).
    { destruct e; try reflexivity. simpl in Hstep. unfold step_Ack in Hstep.
      rewrite Hat in Hstep. discriminate. }
    pose proof (step_while_locked e s s1 Hmu He Hstep) as K.
    apply (IH s1); [now rewrite K | | exact Hrun].
    destruct e as [t|err op| |t|op| ]; simpl in Hstep.
    + unfold step_Connect in Hstep. destruct (reading s); try discriminate.
      destruct (connect t (consumer s)). now injection Hstep as <-.
    + unfold step_NextReturns in Hstep. destruct (reading s); try discriminate.
      destruct err; now injection Hstep as <-.
    + unfold step_Push in Hstep. destruct (reading s); try discriminate.
      rewrite Hmu in Hstep. discriminate.
    + unfold step_Retry in Hstep. destruct (reading s); try discriminate.
      simpl in Hstep.
      destruct (connect t (consumer s)) as [c [err|]];
        now injection Hstep as <-.
    + unfold step_Ack in Hstep. rewrite Hat in Hstep. discriminate.
    + unfold step_Pull in Hstep. rewrite Hat, Hmu in Hstep. discriminate.
Qed.

(** ** The delays of the read loop *)

Lemma double_backoff_delay (k : nat) : double_backoff (delay k) = delay (S k).
Proof.
  do 5 (destruct k as [|k]; [vm_compute; reflexivity|]).
  unfold delay.
  replace (Nat.ltb (S (S (S (S (S k))))) 5) with false by reflexivity.
  replace (Nat.ltb (S (S (S (S (S (S k)))))) 5) with false by reflexivity.
  vm_compute. reflexivity.
Qed.

(** An event other than a push leaves the delay as it is, but for a retry,
    which sleeps for the current delay and doubles it. *)
Lemma step_backoff (e : event) (s s' : System) :
  is_push e = false ->
  step e s = Steps s' ->
  if is_retry e
  then slept s' = slept s ++ [backoff s]
       /\ backoff s' = double_backoff (backoff s)
  else slept s' = slept s /\ backoff s' = backoff s.
Proof.
  intros He Hstep. destruct e as [t|err op| |t|op| ]; simpl in *;
    try discriminate.
  - unfold step_Connect in Hstep. destruct (reading s); try discriminate.
    destruct (connect t (consumer s)). now injection Hstep as <-.
  - unfold step_NextReturns in Hstep. destruct (reading s); try discriminate.
    destruct err; now injection Hstep as <-.
  - unfold step_Retry in Hstep. destruct (reading s); try discriminate.
    simpl in Hstep.
    destruct (connect t (consumer s)) as [c [err|]];
      now injection Hstep as <-.
  - unfold step_Ack in Hstep. destruct (acking s); try discriminate.
    destruct (is_reset op); [destruct (Ledger.mu _); try discriminate|];
      now injection Hstep as <-.
  - unfold step_Pull in Hstep. destruct (acking s); try discriminate.
    destruct (Ledger.mu _); try discriminate.
    destruct (Ledger.pull _ _). now injection Hstep as <-.
Qed.

Lemma run_backoff (es : list event) (s s' : System) (k : nat) :
  backoff s = delay k ->
  forallb (fun e => negb (is_push e)) es = true ->
  run es s = Steps s' ->
  slept s' = slept s ++ map delay (seq k (retries es))
  /\ backoff s' = delay (k + retries es).
Proof.
  revert s k. induction es as [|e es IH]; intros s k Hb Hes Hrun; simpl in *.
  - injection Hrun as <-. unfold retries; simpl.
    now rewrite app_nil_r, Nat.add_0_r.
  - apply andb_true_iff in Hes as [He Hes]. apply negb_true_iff in He.
    destruct (step e s) as [s1| | |] eqn:Hstep; try discriminate.
    pose proof (step_backoff e s s1 He Hstep) as K.
    unfold retries in *; simpl. destruct (is_retry e); simpl.
    + destruct K as [K1 K2].
      rewrite Hb, double_backoff_delay in K2. rewrite Hb in K1.
      destruct (IH s1 (S k) K2 Hes Hrun) as [I1 I2].
      rewrite I1, I2, K1, <- app_assoc. simpl.
      split; [reflexivity | f_equal; lia].
    + destruct K as [K1 K2]. rewrite Hb in K2.
      destruct (IH s1 k K2 Hes Hrun) as [I1 I2].
      now rewrite I1, I2, K1.
Qed.

(** C3, as the specification states it, fails: after a decoding error and
    six failed connection attempts the sixth sleep lasts 32 seconds, not
    30.  And a connection that succeeds does not bring the delay back to one
    second: when the decoder fails again right after it, the sleep lasts 2
    seconds. *)
Lemma sixth_delay_is_not_30_seconds :
  ~ (forall (n : nat) (s' : System),
        run (NextReturns (Some ErrConnectionClosed)
                         {| ID := EmptyString; Event := EmptyString; Data := None |}
             :: repeat (Retry (DoFails (ErrExternal "connection refused"))) n)
            (streaming (subscribed "http://oplog" no_options))
        = Steps s' ->
        slept s' = map delay_as_specified (seq 0 n))
  /\ (exists s' : System,
        run [NextReturns (Some ErrConnectionClosed)
                         {| ID := EmptyString; Event := EmptyString; Data := None |};
             Retry (Responds {| StatusCode := 200; LastEventID := EmptyString;
                                ResponseBody := EmptyString |});
             NextReturns (Some ErrConnectionClosed)
                         {| ID := EmptyString; Event := EmptyString; Data := None |};
             Retry (DoFails (ErrExternal "connection refused"))]
            (streaming (subscribed "http://oplog" no_options))
        = Steps s'
        /\ slept s' = [Second; 2 * Second]).
Proof.
  split.
  - intros H.
    specialize (H 6%nat). vm_compute in H.
    specialize (H _ eq_refl). discriminate.
  - eexists. split; vm_compute; reflexivity.
Qed.

(** C3, amended.  In a run of the read loop without a push (decoding errors
    and connection attempts, failed or not) that starts with a delay of one
    second, the sleeps last 1, 2, 4, 8, 16, 32, 32, ... seconds: the delay
    doubles from one second as long as it is under 30 seconds.  A push sets
    the delay to one second, so the failure that follows it sleeps for one
    second. *)
Theorem backoff_delays :
  (forall (es : list event) (s s' : System),
      backoff s = Second ->
      forallb (fun e => negb (is_push e)) es = true ->
      run es s = Steps s' ->
      slept s' = slept s ++ map delay (seq 0 (retries es)))
  /\ (forall k : nat,
        delay k = Second * (if Nat.ltb k 5 then 2 ^ Z.of_nat k else 32))
  /\ (forall (s s1 s3 : System) (e : error) (op : Operation) (t : RoundTrip),
        step Push s = Steps s1 ->
        run [NextReturns (Some e) op; Retry t] s1 = Steps s3 ->
        backoff s1 = Second /\ slept s3 = slept s ++ [Second]).
Proof.
  repeat split.
  - intros es s s' Hb Hes Hrun.
    now destruct (run_backoff es s s' 0 Hb Hes Hrun).
  - unfold step, step_Push in H. destruct (reading s); try discriminate.
    destruct (Ledger.mu _); try discriminate. now injection H as <-.
  - unfold step, step_Push in H. destruct (reading s); try discriminate.
    destruct (Ledger.mu _); try discriminate. injection H as <-.
    simpl in H0. unfold step_NextReturns, step_Retry in H0. simpl in H0.
    destruct (connect t _) as [c [err|]]; now injection H0 as <-.
Qed.

Lemma backoff_delays_witness :
  (exists s',
      run failures_then_retries (streaming (subscribed "http://oplog" no_options))
      = Steps s'
      /\ slept s'
         = slept (streaming (subscribed "http://oplog" no_options))
           ++ map delay (seq 0 (retries failures_then_retries)))
  /\ (exists s1 s3,
        step Push about_to_push = Steps s1
        /\ run [NextReturns (Some ErrConnectionClosed)
                            {| ID := "1"; Event := EmptyString; Data := None |};
                Retry (DoFails (ErrExternal "connection refused"))] s1
           = Steps s3
        /\ backoff s1 = Second
        /\ slept s3 = slept about_to_push ++ [Second]).
Proof.
  pose proof backoff_delays as (P1 & _ & P3).
  split.
  - destruct (run failures_then_retries
                  (streaming (subscribed "http://oplog" no_options)))
      as [s'| | |] eqn:E; try (vm_compute in E; discriminate).
    exists s'. split; [reflexivity|].
    apply P1; [reflexivity | reflexivity | exact E].
  - destruct (step Push about_to_push) as [s1| | |] eqn:E1;
      try (vm_compute in E1; discriminate).
    destruct (run [NextReturns (Some ErrConnectionClosed)
                               {| ID := "1"; Event := EmptyString; Data := None |};
                   Retry (DoFails (ErrExternal "connection refused"))] s1)
      as [s3| | |] eqn:E3.
    + exists s1, s3. split; [reflexivity|]. split; [exact E3|].
      apply (P3 about_to_push s1 s3 _ _ _ E1 E3).
    + exfalso. unfold about_to_push in E1. vm_compute in E1.
      injection E1 as <-. vm_compute in E3. discriminate.
    + exfalso. unfold about_to_push in E1. vm_compute in E1.
      injection E1 as <-. vm_compute in E3. discriminate.
    + exfalso. unfold about_to_push in E1. vm_compute in E1.
      injection E1 as <-. vm_compute in E3. discriminate.
Defined.

(** ** connect *)

(** C8.  [connect] sorts every response in this order: a position was
    requested and the [Last-Event-ID] of the response differs from it: the
    resume has failed, whatever the status; else a status 401 or 403: access
    denied; else a status other than 200: an error that carries the status
    and the text of the body; else the call succeeds and the body of the
    response is the stream.  In the three cases of failure the stream is
    the empty one. *)
Theorem connect_classifies_response (c : Consumer) (res : Response) :
  (LastId c <> EmptyString /\ LastEventID res <> LastId c ->
   connect (Responds res) c = (set_body EmptyString c, Some ErrResumeFailed))
  /\ (~ (LastId c <> EmptyString /\ LastEventID res <> LastId c) ->
      StatusCode res = 401 \/ StatusCode res = 403 ->
      connect (Responds res) c = (set_body EmptyString c, Some ErrAccessDenied))
  /\ (~ (LastId c <> EmptyString /\ LastEventID res <> LastId c) ->
      StatusCode res <> 401 -> StatusCode res <> 403 ->
      StatusCode res <> 200 ->
      connect (Responds res) c
      = (set_body EmptyString c,
         Some (ErrHTTP (StatusCode res) (ResponseBody res))))
  /\ (~ (LastId c <> EmptyString /\ LastEventID res <> LastId c) ->
      StatusCode res = 200 ->
      connect (Responds res) c = (set_body (ResponseBody res) c, None)
      /\ body (set_body (ResponseBody res) c) = ResponseBody res).
Proof.
  unfold connect, LastId. simpl.
  destruct (String.eqb_spec (lastId c) EmptyString) as [He|He];
    destruct (String.eqb_spec (LastEventID res) (lastId c)) as [Hh|Hh];
    simpl;
    destruct (Z.eqb_spec (StatusCode res) 403) as [H403|H403];
    destruct (Z.eqb_spec (StatusCode res) 401) as [H401|H401];
    destruct (Z.eqb_spec (StatusCode res) 200) as [H200|H200];
    simpl; repeat split; intros; try reflexivity;
    try tauto; try lia.
Qed.

Lemma connect_classifies_response_witness :
  connect (Responds {| StatusCode := 200; LastEventID := EmptyString;
                       ResponseBody := "data" |})
          (set_lastId "42" true (subscribed "http://oplog" no_options))
  = (set_body EmptyString (set_lastId "42" true (subscribed "http://oplog" no_options)),
     Some ErrResumeFailed)
  /\ connect (Responds {| StatusCode := 403; LastEventID := "42";
                          ResponseBody := "forbidden" |})
             (set_lastId "42" true (subscribed "http://oplog" no_options))
     = (set_body EmptyString (set_lastId "42" true (subscribed "http://oplog" no_options)),
        Some ErrAccessDenied)
  /\ connect (Responds {| StatusCode := 500; LastEventID := EmptyString;
                          ResponseBody := "oops" |})
             (subscribed "http://oplog" no_options)
     = (set_body EmptyString (subscribed "http://oplog" no_options),
        Some (ErrHTTP 500 "oops"))
  /\ (connect (Responds {| StatusCode := 200; LastEventID := "42";
                           ResponseBody := "data" |})
              (set_lastId "42" true (subscribed "http://oplog" no_options))
      = (set_body "data" (set_lastId "42" true (subscribed "http://oplog" no_options)),
         None)
      /\ body (set_body "data" (set_lastId "42" true (subscribed "http://oplog" no_options)))
         = "data").
Proof.
  split; [|split; [|split]].
  - apply (connect_classifies_response
             (set_lastId "42" true (subscribed "http://oplog" no_options))
             {| StatusCode := 200; LastEventID := EmptyString;
                ResponseBody := "data" |}).
    simpl. split; discriminate.
  - apply (connect_classifies_response
             (set_lastId "42" true (subscribed "http://oplog" no_options))
             {| StatusCode := 403; LastEventID := "42";
                ResponseBody := "forbidden" |}).
    + simpl. intros [_ H]. now apply H.
    + simpl. now right.
  - apply (connect_classifies_response
             (subscribed "http://oplog" no_options)
             {| StatusCode := 500; LastEventID := EmptyString;
                ResponseBody := "oops" |});
      simpl; try discriminate.
    intros [H _]. now apply H.
  - apply (connect_classifies_response
             (set_lastId "42" true (subscribed "http://oplog" no_options))
             {| StatusCode := 200; LastEventID := "42";
                ResponseBody := "data" |}).
    + simpl. intros [_ H]. now apply H.
    + reflexivity.
Defined.

(** ** loadLastEventID *)

(** The pattern of the state file, spelled out: at most 13 decimal digits,
    or exactly 24 characters among [0-9] and [a-f]. *)
Lemma state_pattern_spelled_out (content : string) :
  state_pattern content = true
  <-> ((String.length content <= 13)%nat /\ all_chars is_digit content = true)
      \/ (String.length content = 24%nat /\ all_chars is_hex content = true).
Proof.
  unfold state_pattern, class_repeat.
  rewrite orb_true_iff, !andb_true_iff, !Nat.leb_le.
  intuition lia.
Qed.

(** C7, as the specification states it, fails on an empty state file: the
    load succeeds although the content is not made of 1 to 13 digits or of
    24 hexadecimal characters. *)
Lemma empty_state_file_is_accepted :
  ~ (snd (loadLastEventID (fun _ => Content EmptyString)
                          (subscribed "http://oplog"
                             {| StateFile := "state"; AllowReplication := false;
                                Password := EmptyString;
                                OptFilter := {| Types := []; FilterParents := [] |} |}))
     = None
     <-> state_pattern_as_specified EmptyString = true).
Proof.
  intros [H _]. specialize (H eq_refl). discriminate.
Qed.

(** C7, amended.  Without a path for the state file, [loadLastEventID]
    returns the empty token and no error.  With a path and no file, it
    returns ["0"] when the replication is allowed and the empty token if
    not, and no error.  With a file whose content is read, it succeeds if
    and only if the content is made of 0 to 13 decimal digits or of exactly
    24 characters among [0-9] and [a-f]; the token is then the content; if
    not, it fails with the error of invalid state data. *)
Theorem loadLastEventID_cases (fs : string -> StateFileStatus) (c : Consumer) :
  (StateFile (options c) = EmptyString ->
   loadLastEventID fs c = (EmptyString, None))
  /\ (StateFile (options c) <> EmptyString ->
      fs (StateFile (options c)) = NotExist ->
      loadLastEventID fs c
      = (if AllowReplication (options c) then "0" else EmptyString, None))
  /\ (forall content : string,
        StateFile (options c) <> EmptyString ->
        fs (StateFile (options c)) = Content content ->
        (snd (loadLastEventID fs c) = None
         <-> ((String.length content <= 13)%nat
              /\ all_chars is_digit content = true)
             \/ (String.length content = 24%nat
                 /\ all_chars is_hex content = true))
        /\ (snd (loadLastEventID fs c) = None ->
            loadLastEventID fs c = (content, None))
        /\ (snd (loadLastEventID fs c) <> None ->
            snd (loadLastEventID fs c) = Some ErrInvalidStateData)).
Proof.
  unfold loadLastEventID. repeat split.
  - intros ->. reflexivity.
  - intros Hp Hfs. apply String.eqb_neq in Hp. now rewrite Hp, Hfs.
  - apply String.eqb_neq in H. rewrite H, H0. simpl.
    rewrite <- state_pattern_spelled_out.
    destruct (state_pattern content); simpl; [reflexivity | discriminate].
  - apply String.eqb_neq in H. rewrite H, H0. simpl.
    rewrite <- state_pattern_spelled_out.
    destruct (state_pattern content); simpl; [reflexivity | discriminate].
  - apply String.eqb_neq in H. rewrite H, H0. simpl.
    destruct (state_pattern content); simpl; [reflexivity | discriminate].
  - apply String.eqb_neq in H. rewrite H, H0. simpl.
    destruct (state_pattern content); simpl; [congruence | reflexivity].
Qed.

Lemma loadLastEventID_cases_witness :
  loadLastEventID (fun _ => NotExist) (subscribed "http://oplog" no_options)
  = (EmptyString, None)
  /\ loadLastEventID (fun _ => NotExist)
       (subscribed "http://oplog"
          {| StateFile := "state"; AllowReplication := true;
             Password := EmptyString;
             OptFilter := {| Types := []; FilterParents := [] |} |})
     = ("0", None)
  /\ loadLastEventID (fun _ => Content "1424")
       (subscribed "http://oplog"
          {| StateFile := "state"; AllowReplication := true;
             Password := EmptyString;
             OptFilter := {| Types := []; FilterParents := [] |} |})
     = ("1424", None)
  /\ snd (loadLastEventID (fun _ => Content "14x")
            (subscribed "http://oplog"
               {| StateFile := "state"; AllowReplication := true;
                  Password := EmptyString;
                  OptFilter := {| Types := []; FilterParents := [] |} |}))
     = Some ErrInvalidStateData.
Proof.
  split; [|split; [|split]].
  - apply (proj1 (loadLastEventID_cases (fun _ => NotExist)
                    (subscribed "http://oplog" no_options))).
    reflexivity.
  - apply (proj1 (proj2 (loadLastEventID_cases (fun _ => NotExist)
             (subscribed "http://oplog"
                {| StateFile := "state"; AllowReplication := true;
                   Password := EmptyString;
                   OptFilter := {| Types := []; FilterParents := [] |} |}))));
      [discriminate | reflexivity].
  - destruct (proj2 (proj2 (loadLastEventID_cases (fun _ => Content "1424")
             (subscribed "http://oplog"
                {| StateFile := "state"; AllowReplication := true;
                   Password := EmptyString;
                   OptFilter := {| Types := []; FilterParents := [] |} |})))
             "1424") as (_ & H & _);
      [discriminate | reflexivity | apply H; reflexivity].
  - destruct (proj2 (proj2 (loadLastEventID_cases (fun _ => Content "14x")
             (subscribed "http://oplog"
                {| StateFile := "state"; AllowReplication := true;
                   Password := EmptyString;
                   OptFilter := {| Types := []; FilterParents := [] |} |})))
             "14x") as (_ & _ & H);
      [discriminate | reflexivity | apply H; discriminate].
Defined.

(** ** The decoder *)

Section DecoderFacts.
Import Strings.

Variable U : string -> option OperationData -> option OperationData * bool.

Lemma append_nil_r (s : string) : (s ++ EmptyString)%string = s.
Proof. induction s as [|c s IH]; simpl; [reflexivity | now rewrite IH]. Qed.

Lemma append_assoc (a b c : string) :
  ((a ++ b) ++ c)%string = (a ++ (b ++ c))%string.
Proof. induction a as [|x a IH]; simpl; [reflexivity | now rewrite IH]. Qed.

(** A read that succeeds takes a non-empty line off the input; the line
    is complete: whatever follows it, it is the first of the complete
    lines, without its line feed. *)
Lemma ReadString_line (d line d' : string) :
  ReadString d = (line, None, d') ->
  d = (line ++ d')%string
  /\ (String.length d' < String.length d)%nat
  /\ line <> EmptyString
  /\ (forall x, complete_lines (line ++ x)
                = TrimSuffix_LF line :: complete_lines x).
Proof.
  revert line d'. induction d as [|c r IH]; intros line d' H; simpl in H.
  - discriminate.
  - destruct (Ascii.eqb_spec c LF) as [->|Hc].
    + injection H as <- <-. simpl. repeat split; auto. discriminate.
    + destruct (ReadString r) as [[line' err'] rest'] eqn:R.
      injection H as <- -> <-.
      destruct (IH line' rest' eq_refl) as (E & L & N & C).
      repeat split.
      * simpl. now rewrite <- E.
      * simpl. lia.
      * discriminate.
      * intros x. simpl.
        apply Ascii.eqb_neq in Hc. rewrite Hc, C.
        destruct line' as [|c' l']; [congruence | reflexivity].
Qed.

(** A read that fails has taken all the input, which held no complete
    line. *)
Lemma ReadString_eof (d line d' : string) (e : error) :
  ReadString d = (line, Some e, d') ->
  d' = EmptyString /\ complete_lines d = [].
Proof.
  revert line d'. induction d as [|c r IH]; intros line d' H; simpl in H.
  - injection H as _ _ <-. auto.
  - destruct (Ascii.eqb c LF) eqn:Hc; [discriminate|].
    destruct (ReadString r) as [[line' err'] rest'] eqn:R.
    injection H as _ -> <-.
    destruct (IH line' rest' eq_refl) as (E & C).
    split; [exact E|]. simpl. now rewrite Hc, C.
Qed.

(** The loop of [next] returns: its fuel is enough. *)
Lemma next_loop_returns (fuel : nat) (d : SSE.decoder) (op : Operation)
      (started : bool) (err : option error) :
  (String.length d < fuel)%nat ->
  exists res, SSE.next_loop U fuel d op started err = Some res.
Proof.
  revert d op started err.
  induction fuel as [|fuel IH]; intros d op started err Hlen; [lia|].
  simpl. destruct (ReadString d) as [[line rerr] d1] eqn:R.
  destruct rerr as [e|]; [eexists; reflexivity|].
  destruct (ReadString_line d line d1 R) as (_ & L & _ & _).
  assert (Hf : (String.length d1 < fuel)%nat) by lia.
  repeat match goal with
         | |- context [if ?b then _ else _] => destruct b
         | |- context [let '(_, _) := ?p in _] => destruct p
         end;
    try (eexists; reflexivity); apply IH; exact Hf.
Qed.

Lemma next_returns (d : SSE.decoder) (op : Operation) :
  exists res, SSE.next U d op = Some res.
Proof.
  unfold SSE.next.
  destruct (next_loop_returns (S (String.length d)) d
              (SSE.setData None (SSE.setEvent EmptyString op)) false None
              ltac:(lia)) as [[[e op'] d'] ->].
  eexists. reflexivity.
Qed.

(** The loop ends on a record boundary or on the end of the input. *)
Lemma next_loop_error (fuel : nat) (d : SSE.decoder) (op : Operation)
      (started : bool) (err : option error)
      (e : option error) (op' : Operation) (d' : SSE.decoder) :
  SSE.next_loop U fuel d op started err = Some (e, op', d') ->
  e = None \/ e = Some ErrConnectionClosed.
Proof.
  revert d op started err.
  induction fuel as [|fuel IH]; intros d op started err H; [discriminate|].
  simpl in H. destruct (ReadString d) as [[line rerr] d1].
  destruct rerr as [x|]; [injection H as <- _ _; now right|].
  repeat match type of H with
         | context [if ?b then _ else _] => destruct b
         | context [let '(_, _) := ?p in _] => destruct p
         end;
    try (injection H as <- _ _; now left); eapply IH; exact H.
Qed.

(** The tests after the loop leave three outcomes: no error and a valid
    operation, an invalid operation, or the end of the input on a valid
    operation. *)
Lemma next_checks_cases (err : option error) (op : Operation) :
  err = None \/ err = Some ErrConnectionClosed ->
  (SSE.next_checks err op = None /\ Validate op = true)
  \/ (SSE.next_checks err op = Some ErrInvalidEvent /\ Validate op = false)
  \/ (SSE.next_checks err op = Some ErrConnectionClosed
      /\ Validate op = true).
Proof.
  unfold SSE.next_checks, Validate.
  intros [->| ->]; destruct (String.eqb (Event op) EmptyString); simpl; auto;
    destruct (Data op); simpl; auto;
    destruct (String.eqb (Event op) "reset"); simpl; auto;
    destruct (String.eqb (Event op) "live"); simpl; auto.
Qed.

Lemma next_cases (d : SSE.decoder) (op : Operation) :
  exists e op' d',
    SSE.next U d op = Some (e, op', d')
    /\ ((e = None /\ Validate op' = true)
        \/ (e = Some ErrInvalidEvent /\ Validate op' = false)
        \/ (e = Some ErrConnectionClosed /\ Validate op' = true)).
Proof.
  destruct (next_returns d op) as [[[e op'] d'] H].
  exists e, op', d'. split; [exact H|].
  unfold SSE.next in H.
  destruct (SSE.next_loop U _ d _ false None) as [[[e0 op0] d0]|] eqn:L;
    [|discriminate].
  injection H as <- <- <-.
  apply next_checks_cases. eapply next_loop_error. exact L.
Qed.

End DecoderFacts.

(** C4.  The claim is that a record that ends without an [event] field
    makes [next] return [ErrIncompleteEvent].  On the stream made of the
    line [id: 1] and of a blank line [next] returns [ErrInvalidEvent]: the
    test of [Validate] that follows overwrites the error, as an operation
    without event is never valid.  [next] returns on every input and never
    returns [ErrIncompleteEvent]: its result is no error, [ErrInvalidEvent]
    or [ErrConnectionClosed]. *)
Theorem record_without_event_is_reported_invalid
        (U : string -> option OperationData -> option OperationData * bool)
        (op : Operation) :
  SSE.next U (Strings.unlines ["id: 1"; EmptyString]) op
  = Some (Some ErrInvalidEvent,
          {| ID := "1"; Event := EmptyString; Data := None |}, EmptyString)
  /\ (forall d : SSE.decoder,
        exists e op' d',
          SSE.next U d op = Some (e, op', d')
          /\ (e = None \/ e = Some ErrInvalidEvent
              \/ e = Some ErrConnectionClosed)).
Proof.
  split; [reflexivity|].
  intros d. destruct (next_cases U d op) as (e & op' & d' & H & C).
  exists e, op', d'. split; [exact H | tauto].
Qed.

(** C5.  The claim is that a stream that ends before a record boundary makes
    [next] return [ErrConnectionClosed].  On the empty stream, and on a
    stream that ends after the line [id: 7] and the start of another line,
    [next] returns [ErrInvalidEvent]: the test of [Validate] overwrites
    [ErrConnectionClosed], as the operation read so far has no event.
    [ErrConnectionClosed] comes out when the lines read before the end make
    a valid operation, as the line [event: live] does. *)
Theorem end_of_stream_is_reported_invalid
        (U : string -> option OperationData -> option OperationData * bool)
        (op : Operation) :
  SSE.next U EmptyString op
  = Some (Some ErrInvalidEvent,
          {| ID := ID op; Event := EmptyString; Data := None |}, EmptyString)
  /\ SSE.next U (Strings.unlines ["id: 7"] ++ "event: ins")%string op
     = Some (Some ErrInvalidEvent,
             {| ID := "7"; Event := EmptyString; Data := None |}, EmptyString)
  /\ SSE.next U (Strings.unlines ["event: live"]) op
     = Some (Some ErrConnectionClosed,
             {| ID := ID op; Event := "live"; Data := None |}, EmptyString).
Proof.
  repeat split.
Qed.

(** C6.  The claim is that a record whose [data] value is not valid JSON
    makes [next] return [ErrInvalidEvent], for every event.  On the record
    made of the lines [event: reset] and [data: {], for every decoder of
    payloads that refuses the text [{], [next] returns no error: the
    [break] that follows [err = ErrInvalidEvent] leaves the [switch] only,
    the next read overwrites [err], and a reset is valid without data. *)
Theorem invalid_data_of_reset_is_accepted
        (U : string -> option OperationData -> option OperationData * bool)
        (op : Operation) :
  snd (U "{" None) = true ->
  SSE.next U (Strings.unlines ["event: reset"; "data: {"; EmptyString]) op
  = Some (None,
          {| ID := ID op; Event := "reset"; Data := fst (U "{" None) |},
          EmptyString).
Proof.
  intros Hfail. unfold SSE.next. simpl.
  destruct (U "{" None) as [data failed]. simpl in *.
  unfold SSE.next_checks, Validate. simpl.
  destruct data; reflexivity.
Qed.

Lemma invalid_data_of_reset_is_accepted_witness :
  SSE.next SSE.Unmarshal_minimal
           (Strings.unlines ["event: reset"; "data: {"; EmptyString])
           {| ID := "41"; Event := "insert"; Data := None |}
  = Some (None,
          {| ID := "41"; Event := "reset";
             Data := fst (SSE.Unmarshal_minimal "{" None) |},
          EmptyString).
Proof.
  apply (invalid_data_of_reset_is_accepted SSE.Unmarshal_minimal
           {| ID := "41"; Event := "insert"; Data := None |}).
  reflexivity.
Defined.

(** ** The id of the scratch operation *)

Section StaleIds.
Import Strings.

Variable U : string -> option OperationData -> option OperationData * bool.

Lemma SplitN_shape (l : string) :
  (exists a, SplitN_colon_2 l = [a]) \/ (exists a b, SplitN_colon_2 l = [a; b]).
Proof.
  induction l as [|c l IH]; simpl.
  - left. now eexists.
  - destruct (Ascii.eqb c ":"%char).
    + right. now do 2 eexists.
    + destruct IH as [[a ->]|[a [b ->]]]; [left | right]; now repeat eexists.
Qed.

(** [id_line] in the terms of the loop of [next]. *)
Lemma id_line_field (l : string) :
  id_line l
  = if String.eqb (nth 0 (SplitN_colon_2 l) EmptyString) "id"
    then Some (if Nat.eqb (length (SplitN_colon_2 l)) 2
               then TrimPrefix_space (nth 1 (SplitN_colon_2 l) EmptyString)
               else EmptyString)
    else None.
Proof.
  unfold id_line.
  destruct (SplitN_shape l) as [[a ->]|[a [b ->]]]; reflexivity.
Qed.

Lemma comment_is_no_id_line (l : string) :
  HasPrefix_colon l = true -> id_line l = None.
Proof.
  destruct l as [|c l]; simpl; [discriminate|].
  intros H. unfold id_line. simpl. now rewrite H.
Qed.

Lemma most_recent_id_nil (id : string) : most_recent_id EmptyString id = id.
Proof. reflexivity. Qed.

(** One more line in front of the text read. *)
Lemma extend_consumed (d line d1 d' c2 idres id0 id1 : string) :
  ReadString d = (line, None, d1) ->
  d1 = (c2 ++ d')%string ->
  closed c2 d' ->
  idres = most_recent_id c2 id1 ->
  id1 = id_after id0 (TrimSuffix_LF line) ->
  exists consumed,
    d = (consumed ++ d')%string
    /\ closed consumed d'
    /\ idres = most_recent_id consumed id0.
Proof.
  intros R E C I J.
  destruct (ReadString_line d line d1 R) as (Ed & _ & _ & L).
  exists (line ++ c2)%string. repeat split.
  - now rewrite append_assoc, <- E.
  - destruct C as [C|C]; [left | now right].
    intros x. now rewrite append_assoc, !L, C.
  - unfold most_recent_id. rewrite L. simpl.
    now rewrite I, J.
Qed.

(** The loop of [next] reads a prefix of the input and leaves in the
    operation the id of the most recent [id] line of that prefix. *)
Lemma next_loop_id (fuel : nat) (d : SSE.decoder) (op : Operation)
      (started : bool) (err : option error)
      (e : option error) (op' : Operation) (d' : SSE.decoder) :
  SSE.next_loop U fuel d op started err = Some (e, op', d') ->
  exists consumed,
    d = (consumed ++ d')%string
    /\ closed consumed d'
    /\ ID op' = most_recent_id consumed (ID op).
Proof.
  revert d op started err.
  induction fuel as [|fuel IH]; intros d op started err H; [discriminate|].
  simpl in H. destruct (ReadString d) as [[line rerr] d1] eqn:R.
  destruct rerr as [x|].
  - injection H as _ <- <-.
    destruct (ReadString_eof d line d1 x R) as (-> & C).
    exists d. repeat split.
    + now rewrite append_nil_r.
    + now right.
    + unfold most_recent_id. now rewrite C.
  - assert (Step : forall op1 started1 err1,
               SSE.next_loop U fuel d1 op1 started1 err1 = Some (e, op', d') ->
               ID op1 = id_after (ID op) (TrimSuffix_LF line) ->
               exists consumed,
                 d = (consumed ++ d')%string
                 /\ closed consumed d'
                 /\ ID op' = most_recent_id consumed (ID op)).
    { intros op1 started1 err1 H1 J.
      destruct (IH _ _ _ _ H1) as (c2 & E & C & I).
      exact (extend_consumed d line d1 d' c2 _ _ _ R E C I J). }
    destruct (String.eqb_spec line (String LF EmptyString)) as [Hnl|Hnl].
    + assert (J : ID op = id_after (ID op) (TrimSuffix_LF line))
        by (now rewrite Hnl).
      destruct started.
      * injection H as _ <- <-.
        apply (extend_consumed d line d1 d1 EmptyString (ID op) (ID op) (ID op));
          [exact R | reflexivity | left; reflexivity | reflexivity | exact J].
      * exact (Step _ _ _ H J).
    + destruct (HasPrefix_colon (TrimSuffix_LF line)) eqn:Hc.
      * apply (Step _ _ _ H).
        unfold id_after. now rewrite comment_is_no_id_line.
      * pose proof (id_line_field (TrimSuffix_LF line)) as F.
        destruct (String.eqb (nth 0 (SplitN_colon_2 (TrimSuffix_LF line))
                                 EmptyString) "id").
        { apply (Step _ _ _ H). unfold id_after. now rewrite F. }
        destruct (String.eqb (nth 0 (SplitN_colon_2 (TrimSuffix_LF line))
                                 EmptyString) "event").
        { apply (Step _ _ _ H). unfold id_after. now rewrite F. }
        destruct (String.eqb (nth 0 (SplitN_colon_2 (TrimSuffix_LF line))
                                 EmptyString) "data").
        { destruct (U _ (Data op)) as [data failed].
          apply (Step _ _ _ H). unfold id_after. now rewrite F. }
        apply (Step _ _ _ H). unfold id_after. now rewrite F.
Qed.

Lemma next_id (d : SSE.decoder) (op : Operation)
      (e : option error) (op' : Operation) (d' : SSE.decoder) :
  SSE.next U d op = Some (e, op', d') ->
  exists consumed,
    d = (consumed ++ d')%string
    /\ closed consumed d'
    /\ ID op' = most_recent_id consumed (ID op).
Proof.
  unfold SSE.next. intros H.
  destruct (SSE.next_loop U _ d _ false None) as [[[e0 op0] d0]|] eqn:L;
    [|discriminate].
  injection H as _ <- <-.
  exact (next_loop_id _ _ _ _ _ _ _ _ L).
Qed.

Lemma next_times_id (n : nat) (d : SSE.decoder) (op : Operation)
      (e0 e : option error) (op' : Operation) (d' : SSE.decoder) :
  SSE.next_times U n (e0, op, d) = Some (e, op', d') ->
  exists consumed,
    d = (consumed ++ d')%string
    /\ ID op' = most_recent_id consumed (ID op).
Proof.
  revert d op e0. induction n as [|n IH]; intros d op e0 H; simpl in H.
  - injection H as _ <- <-. exists EmptyString. split; reflexivity.
  - destruct (SSE.next U d op) as [[[e1 op1] d1]|] eqn:N; [|discriminate].
    destruct (next_id d op e1 op1 d1 N) as (c1 & E1 & C1 & I1).
    destruct (IH d1 op1 e1 H) as (c2 & E2 & I2).
    destruct C1 as [C1|C1].
    + exists (c1 ++ c2)%string. split.
      * now rewrite append_assoc, <- E2.
      * unfold most_recent_id in *.
        rewrite <- (append_nil_r (c1 ++ c2)), append_assoc, C1.
        now rewrite append_nil_r, fold_left_app, <- I1.
    + subst d1. destruct c2 as [|c c2]; [|discriminate].
      simpl in E2. subst d'.
      exists c1. split; [exact E1|].
      now rewrite I2, most_recent_id_nil.
Qed.

End StaleIds.

(** C10.  [next] resets the event and the data of its scratch operation,
    never the id:
    - what a call returns depends on the scratch operation through its id
      only;
    - after any number of calls on one decoder and one scratch operation,
      the id of the operation is the value of the most recent [id] line of
      the text read so far, and the id the scratch operation had at first
      when that text has no [id] line;
    - on a stream whose first record has the line [id: 7] and whose second
      record has no [id] line, the second operation has the id 7. *)
Theorem id_survives_across_records
        (U : string -> option OperationData -> option OperationData * bool) :
  (forall (d : SSE.decoder) (op1 op2 : Operation),
      ID op1 = ID op2 -> SSE.next U d op1 = SSE.next U d op2)
  /\ (forall (n : nat) (d : SSE.decoder) (op : Operation)
             (e : option error) (op' : Operation) (d' : SSE.decoder),
        SSE.next_times U n (None, op, d) = Some (e, op', d') ->
        exists consumed,
          d = (consumed ++ d')%string
          /\ ID op' = most_recent_id consumed (ID op))
  /\ SSE.next_times U 2
       (None, {| ID := EmptyString; Event := EmptyString; Data := None |},
        Strings.unlines ["id: 7"; "event: live"; EmptyString;
                         "event: reset"; EmptyString])
     = Some (None, {| ID := "7"; Event := "reset"; Data := None |}, EmptyString).
Proof.
  split; [|split].
  - intros d op1 op2 H. unfold SSE.next, SSE.setData, SSE.setEvent. simpl.
    now rewrite H.
  - intros n d op e op' d' H. exact (next_times_id U n d op None e op' d' H).
  - reflexivity.
Qed.

Lemma id_survives_across_records_witness :
  SSE.next SSE.Unmarshal_minimal (Strings.unlines ["event: live"; EmptyString])
           {| ID := "7"; Event := "insert"; Data := None |}
  = SSE.next SSE.Unmarshal_minimal (Strings.unlines ["event: live"; EmptyString])
             {| ID := "7"; Event := "reset"; Data := None |}
  /\ (exists consumed,
        Strings.unlines ["id: 7"; "event: live"; EmptyString;
                         "event: reset"; EmptyString; "id: 9"]
        = (consumed ++ Strings.unlines ["id: 9"])%string
        /\ "7" = most_recent_id consumed EmptyString).
Proof.
  split.
  - apply (proj1 (id_survives_across_records SSE.Unmarshal_minimal)).
    reflexivity.
  - apply (proj1 (proj2 (id_survives_across_records SSE.Unmarshal_minimal))
             2%nat
             (Strings.unlines ["id: 7"; "event: live"; EmptyString;
                               "event: reset"; EmptyString; "id: 9"])
             {| ID := EmptyString; Event := EmptyString; Data := None |}
             None
             {| ID := "7"; Event := "reset"; Data := None |}
             (Strings.unlines ["id: 9"])).
    reflexivity.
Defined.

(** * More of the package *)

(** ** The ledger: order, duplicates and round trips *)

Section LedgerOrder.
Import Ledger.

Lemma pull_from_subset (i : Z) (id : string) (l : list string) :
  incl (snd (pull_from i id l)) l.
Proof.
  revert i. induction l as [|eid l IH]; intros i; simpl.
  - apply incl_refl.
  - destruct (String.eqb eid id); simpl.
    + apply incl_tl, incl_refl.
    + specialize (IH (i + 1)).
      destruct (pull_from (i + 1) id l) as [index rest]; simpl in *.
      intros x [<-|Hx]; [now left | right; now apply IH].
Qed.

(** The loop of [pull] on a list that holds the id: it stops at the first
    occurrence. *)
Lemma pull_from_present (i : Z) (id : string) (l : list string) :
  In id l ->
  exists n : nat,
    pull_from i id l = (i + Z.of_nat n, without_nth n l)
    /\ nth_error l n = Some id
    /\ ~ In id (firstn n l).
Proof.
  revert i. induction l as [|eid l IH]; intros i Hin; [destruct Hin|].
  simpl. destruct (String.eqb_spec eid id) as [->|Hne].
  - exists 0%nat. unfold without_nth. simpl.
    repeat split; [f_equal; lia | tauto].
  - destruct Hin as [Heq|Hin]; [congruence|].
    destruct (IH (i + 1) Hin) as (n & P & N & F).
    exists (S n). rewrite P. unfold without_nth in *. simpl.
    repeat split; [f_equal; lia | exact N | intros [H|H]; auto].
Qed.

Lemma pull_from_NoDup (i : Z) (id : string) (l : list string) :
  NoDup l -> NoDup (snd (pull_from i id l)).
Proof.
  revert i. induction l as [|eid l IH]; intros i Hnd; simpl; [constructor|].
  inversion Hnd as [|? ? Hnotin Hnd']; subst.
  destruct (String.eqb eid id); simpl; [exact Hnd'|].
  pose proof (pull_from_subset (i + 1) id l) as Hsub.
  specialize (IH (i + 1) Hnd').
  destruct (pull_from (i + 1) id l) as [index rest]; simpl in *.
  constructor; [|exact IH]. intro H. apply Hnotin. now apply Hsub.
Qed.

Lemma pull_from_others (i : Z) (id x : string) (l : list string) :
  NoDup l ->
  (In x (snd (pull_from i id l)) <-> In x l /\ x <> id).
Proof.
  revert i. induction l as [|eid l IH]; intros i Hnd; simpl; [tauto|].
  inversion Hnd as [|? ? Hnotin Hnd']; subst.
  destruct (String.eqb_spec eid id) as [->|Hne]; simpl.
  - split.
    + intros H. split; [now right | congruence].
    + intros [[H|H] Hx]; [congruence | exact H].
  - specialize (IH (i + 1) Hnd').
    destruct (pull_from (i + 1) id l) as [index rest]; simpl in *.
    rewrite IH. split.
    + intros [<-|[H Hx]]; split; auto.
    + intros [[H|H] Hx]; auto.
Qed.

Lemma push_NoDup (id : string) (l : inFlightEvents) :
  NoDup (ids l) -> NoDup (ids (push id l)).
Proof.
  intros Hnd. unfold push.
  destruct (already_in id (ids l)) eqn:E; simpl; [exact Hnd|].
  apply NoDup_app; [exact Hnd | repeat constructor; auto |].
  intros x Hx [<-|[]].
  apply already_in_In in Hx. congruence.
Qed.

Lemma call_NoDup (k : ledger_call) (l : inFlightEvents) :
  NoDup (ids l) -> NoDup (ids (call k l)).
Proof.
  destruct k as [id|id]; simpl.
  - apply push_NoDup.
  - intros Hnd. unfold pull.
    pose proof (pull_from_NoDup 0 id (ids l) Hnd) as H.
    now destruct (pull_from 0 id (ids l)).
Qed.

End LedgerOrder.

(** X1.  Whatever the calls of [push] and [pull] on a new ledger, no id is
    twice in it, and it never holds more ids than there were pushes. *)
Theorem ledger_never_holds_duplicates (calls : list ledger_call) :
  NoDup (Ledger.ids (fold_left (fun l k => call k l) calls
                               Ledger.newInFlightEvents))
  /\ Ledger.count (fold_left (fun l k => call k l) calls
                             Ledger.newInFlightEvents)
     <= Z.of_nat (length (filter (fun k => match k with
                                           | CallPush _ => true
                                           | CallPull _ => false
                                           end) calls)).
Proof.
  assert (G : forall l : Ledger.inFlightEvents,
             NoDup (Ledger.ids l) ->
             NoDup (Ledger.ids (fold_left (fun l k => call k l) calls l))
             /\ Ledger.count (fold_left (fun l k => call k l) calls l)
                <= Ledger.count l
                   + Z.of_nat (length (filter (fun k => match k with
                                                        | CallPush _ => true
                                                        | CallPull _ => false
                                                        end) calls))).
  { induction calls as [|k calls IH]; intros l Hnd; simpl.
    - split; [exact Hnd | lia].
    - destruct (IH (call k l) (call_NoDup k l Hnd)) as [I1 I2].
      split; [exact I1|].
      eapply Z.le_trans; [exact I2|].
      destruct k as [id|id]; simpl.
      + unfold Ledger.push, Ledger.count.
        destruct (Ledger.already_in id (Ledger.ids l)); simpl;
          rewrite ?length_app; simpl; lia.
      + unfold Ledger.pull, Ledger.count.
        pose proof (pull_from_subset 0 id (Ledger.ids l)) as Hsub.
        pose proof (pull_from_NoDup 0 id (Ledger.ids l) Hnd) as Hnd'.
        destruct (Ledger.pull_from 0 id (Ledger.ids l)) as [idx rest].
        simpl in *.
        pose proof (NoDup_incl_length Hnd' Hsub). lia. }
  destruct (G Ledger.newInFlightEvents) as [G1 G2]; [constructor|].
  split; [exact G1 | exact G2].
Qed.

(** X2.  [pull] of an id that is in the ledger returns the index of its
    first occurrence, which is under [count]; the ledger loses that element
    and nothing else, the others keeping their order; [count] goes down by
    one and the mutex is left as it was. *)
Theorem pull_returns_first_index (ife : Ledger.inFlightEvents) (id : string) :
  In id (Ledger.ids ife) ->
  exists n : nat,
    fst (Ledger.pull id ife) = Z.of_nat n
    /\ Z.of_nat n < Ledger.count ife
    /\ nth_error (Ledger.ids ife) n = Some id
    /\ ~ In id (firstn n (Ledger.ids ife))
    /\ Ledger.ids (snd (Ledger.pull id ife)) = without_nth n (Ledger.ids ife)
    /\ Ledger.count (snd (Ledger.pull id ife)) = Ledger.count ife - 1
    /\ Ledger.mu (snd (Ledger.pull id ife)) = Ledger.mu ife.
Proof.
  intros Hin. unfold Ledger.pull, Ledger.count.
  destruct (pull_from_present 0 id (Ledger.ids ife) Hin) as (n & P & N & F).
  rewrite P. simpl. exists n.
  assert (Hn : (n < length (Ledger.ids ife))%nat)
    by (apply nth_error_Some; congruence).
  repeat split; auto; try lia.
  unfold without_nth. rewrite length_app, length_firstn, length_skipn. lia.
Qed.

Lemma pull_returns_first_index_witness :
  exists n : nat,
    fst (Ledger.pull "b" {| Ledger.mu := false; Ledger.ids := ["a"; "b"; "c"] |})
    = Z.of_nat n
    /\ Z.of_nat n < 3
    /\ nth_error ["a"; "b"; "c"] n = Some "b"
    /\ ~ In "b" (firstn n ["a"; "b"; "c"])
    /\ Ledger.ids (snd (Ledger.pull "b" {| Ledger.mu := false;
                                           Ledger.ids := ["a"; "b"; "c"] |}))
       = without_nth n ["a"; "b"; "c"]
    /\ Ledger.count (snd (Ledger.pull "b" {| Ledger.mu := false;
                                             Ledger.ids := ["a"; "b"; "c"] |}))
       = 3 - 1
    /\ Ledger.mu (snd (Ledger.pull "b" {| Ledger.mu := false;
                                          Ledger.ids := ["a"; "b"; "c"] |}))
       = false.
Proof.
  apply (pull_returns_first_index
           {| Ledger.mu := false; Ledger.ids := ["a"; "b"; "c"] |} "b").
  simpl. right. now left.
Defined.

(** X3.  In a ledger without duplicates, an id that has been pulled is no
    longer in the ledger, and every other id is in it as it was before. *)
Theorem pull_removes_the_id_only (ife : Ledger.inFlightEvents) (id x : string) :
  NoDup (Ledger.ids ife) ->
  ~ In id (Ledger.ids (snd (Ledger.pull id ife)))
  /\ (In x (Ledger.ids (snd (Ledger.pull id ife)))
      <-> In x (Ledger.ids ife) /\ x <> id).
Proof.
  intros Hnd. unfold Ledger.pull.
  pose proof (pull_from_others 0 id id (Ledger.ids ife) Hnd) as H1.
  pose proof (pull_from_others 0 id x (Ledger.ids ife) Hnd) as H2.
  destruct (Ledger.pull_from 0 id (Ledger.ids ife)) as [idx rest]; simpl in *.
  split; [|exact H2]. intros H. apply H1 in H. now destruct H.
Qed.

Lemma pull_removes_the_id_only_witness :
  ~ In "a" (Ledger.ids (snd (Ledger.pull "a" {| Ledger.mu := false;
                                                Ledger.ids := ["a"; "b"] |})))
  /\ (In "b" (Ledger.ids (snd (Ledger.pull "a" {| Ledger.mu := false;
                                                  Ledger.ids := ["a"; "b"] |})))
      <-> In "b" ["a"; "b"] /\ "b" <> "a").
Proof.
  apply (pull_removes_the_id_only
           {| Ledger.mu := false; Ledger.ids := ["a"; "b"] |} "a" "b").
  simpl. repeat constructor; simpl; intuition discriminate.
Defined.

(** X4.  [push] never moves an entry: the ids of the ledger are the start
    of its ids after the push, so the oldest stays at index 0; the id
    pushed is in the ledger afterwards, and pushing it again changes
    nothing.  Pushing an id that was not in the ledger and pulling it back
    returns the former [count] as index and the former ledger. *)
Theorem push_appends_and_pull_undoes (ife : Ledger.inFlightEvents) (id : string) :
  (exists suffix, Ledger.ids (Ledger.push id ife) = Ledger.ids ife ++ suffix)
  /\ In id (Ledger.ids (Ledger.push id ife))
  /\ Ledger.push id (Ledger.push id ife) = Ledger.push id ife
  /\ (~ In id (Ledger.ids ife) ->
      Ledger.count (Ledger.push id ife) = Ledger.count ife + 1
      /\ Ledger.pull id (Ledger.push id ife) = (Ledger.count ife, ife)).
Proof.
  assert (Hin : In id (Ledger.ids (Ledger.push id ife))).
  { unfold Ledger.push.
    destruct (Ledger.already_in id (Ledger.ids ife)) eqn:E.
    - now apply already_in_In.
    - simpl. apply in_or_app. right. now left. }
  split; [|split; [exact Hin|split]].
  - unfold Ledger.push.
    destruct (Ledger.already_in id (Ledger.ids ife)); simpl.
    + exists []. now rewrite app_nil_r.
    + now exists [id].
  - apply already_in_In in Hin. unfold Ledger.push at 1. now rewrite Hin.
  - intros Hnot.
    assert (E : Ledger.already_in id (Ledger.ids ife) = false).
    { destruct (Ledger.already_in id (Ledger.ids ife)) eqn:E; [|reflexivity].
      apply already_in_In in E. contradiction. }
    unfold Ledger.push. rewrite E. unfold Ledger.count, Ledger.pull. simpl.
    split; [rewrite length_app; simpl; lia|].
    assert (G : forall i l, ~ In id l ->
                 Ledger.pull_from i id (l ++ [id])
                 = (i + Z.of_nat (length l), l)).
    { intros i l. revert i. induction l as [|eid l IH]; intros i Hl; simpl.
      - rewrite String.eqb_refl. f_equal. lia.
      - destruct (String.eqb_spec eid id) as [->|Hne].
        + exfalso. apply Hl. now left.
        + rewrite IH; [f_equal; lia|]. intro H. apply Hl. now right. }
    rewrite (G 0 (Ledger.ids ife) Hnot). destruct ife; reflexivity.
Qed.

Lemma push_appends_and_pull_undoes_witness :
  Ledger.count (Ledger.push "c" {| Ledger.mu := false; Ledger.ids := ["a"; "b"] |})
  = 2 + 1
  /\ Ledger.pull "c" (Ledger.push "c" {| Ledger.mu := false;
                                         Ledger.ids := ["a"; "b"] |})
     = (2, {| Ledger.mu := false; Ledger.ids := ["a"; "b"] |}).
Proof.
  apply (proj2 (proj2 (proj2 (push_appends_and_pull_undoes
                                {| Ledger.mu := false; Ledger.ids := ["a"; "b"] |}
                                "c")))).
  simpl. intuition discriminate.
Defined.

(** ** The decoder: results, progress and fields *)

Lemma Validate_spelled_out (o : Operation) :
  Validate o = true
  <-> Event o <> EmptyString
      /\ (Data o <> None \/ Event o = "reset" \/ Event o = "live").
Proof.
  unfold Validate.
  destruct (String.eqb_spec (Event o) EmptyString) as [He|He].
  - split; [discriminate | tauto].
  - destruct (Data o) as [p|]; simpl.
    + split; [|reflexivity]. intros _. split; [exact He | left; discriminate].
    + destruct (String.eqb_spec (Event o) "reset") as [Hr|Hr]; simpl.
      * split; [|reflexivity]. intros _. auto.
      * destruct (String.eqb_spec (Event o) "live") as [Hl|Hl]; simpl.
        -- split; [|reflexivity]. intros _. auto.
        -- split; [discriminate|]. intros [_ [H|[H|H]]]; congruence.
Qed.

Section DecoderProgress.
Import Strings.

Variable U : string -> option OperationData -> option OperationData * bool.

(** The loop of [next] leaves less input than it found, or none; it
    leaves none when it ends on the end of the input. *)
Lemma next_loop_progress (fuel : nat) (d : SSE.decoder) (op : Operation)
      (started : bool) (err : option error)
      (e : option error) (op' : Operation) (d' : SSE.decoder) :
  SSE.next_loop U fuel d op started err = Some (e, op', d') ->
  (d' = EmptyString \/ (String.length d' < String.length d)%nat)
  /\ (e = Some ErrConnectionClosed -> d' = EmptyString)
  /\ (e = None -> (String.length d' < String.length d)%nat).
Proof.
  revert d op started err.
  induction fuel as [|fuel IH]; intros d op started err H; [discriminate|].
  simpl in H. destruct (ReadString d) as [[line rerr] d1] eqn:R.
  destruct rerr as [x|].
  - injection H as <- _ <-.
    destruct (ReadString_eof d line d1 x R) as (-> & _).
    repeat split; auto. discriminate.
  - destruct (ReadString_line d line d1 R) as (_ & L & _ & _).
    assert (Step : forall op1 started1 err1,
               SSE.next_loop U fuel d1 op1 started1 err1 = Some (e, op', d') ->
               (d' = EmptyString \/ (String.length d' < String.length d)%nat)
               /\ (e = Some ErrConnectionClosed -> d' = EmptyString)
               /\ (e = None -> (String.length d' < String.length d)%nat)).
    { intros op1 started1 err1 H1.
      destruct (IH _ _ _ _ H1) as (A & B & C).
      repeat split; auto; [destruct A; [now left | right; lia]|].
      intros He. specialize (C He). lia. }
    repeat match type of H with
           | context [if ?b then _ else _] => destruct b
           | context [let '(_, _) := ?p in _] => destruct p
           end;
      try (eapply Step; exact H).
    injection H as <- _ <-. repeat split; auto. discriminate.
Qed.

(** More fuel does not change the result of the loop. *)
Lemma next_loop_fuel (fuel fuel' : nat) (d : SSE.decoder) (op : Operation)
      (started : bool) (err : option error)
      (res : option error * Operation * SSE.decoder) :
  SSE.next_loop U fuel d op started err = Some res ->
  (fuel <= fuel')%nat ->
  SSE.next_loop U fuel' d op started err = Some res.
Proof.
  revert fuel' d op started err.
  induction fuel as [|fuel IH]; intros fuel' d op started err H Hle;
    [discriminate|].
  destruct fuel' as [|fuel']; [lia|].
  simpl in *. destruct (ReadString d) as [[line rerr] d1].
  destruct rerr as [x|]; [exact H|].
  repeat match type of H with
         | context [if ?b then _ else _] => destruct b
         | context [let '(_, _) := ?p in _] => destruct p
         end;
    try exact H; apply IH; (exact H || lia).
Qed.

(** Any two fuels above the length of the input give the same result. *)
Lemma next_loop_enough (f f' : nat) (d : SSE.decoder) (op : Operation)
      (started : bool) (err : option error) :
  (String.length d < f)%nat -> (String.length d < f')%nat ->
  SSE.next_loop U f d op started err = SSE.next_loop U f' d op started err.
Proof.
  intros Hf Hf'.
  destruct (next_loop_returns U f d op started err Hf) as [r Hr].
  destruct (next_loop_returns U f' d op started err Hf') as [r' Hr'].
  pose proof (next_loop_fuel f (Nat.max f f') d op started err r Hr
                ltac:(lia)) as M.
  pose proof (next_loop_fuel f' (Nat.max f f') d op started err r' Hr'
                ltac:(lia)) as M'.
  rewrite Hr, Hr'. congruence.
Qed.

Lemma length_append (a b : string) :
  String.length (a ++ b)%string = (String.length a + String.length b)%nat.
Proof. induction a as [|c a IH]; simpl; [reflexivity | now rewrite IH]. Qed.

(** A read on a text that starts with a line. *)
Lemma ReadString_append (body rest : string) :
  one_line body = true ->
  ReadString (body ++ String LF rest)%string
  = ((body ++ String LF EmptyString)%string, None, rest).
Proof.
  unfold one_line. induction body as [|c body IH]; simpl; intros H.
  - reflexivity.
  - apply andb_true_iff in H as [Hc H]. apply negb_true_iff in Hc.
    change (Ascii.eqb c LF) with (Ascii.eqb c "010"%char) in *.
    unfold LF. rewrite Hc. fold LF. now rewrite (IH H).
Qed.

Lemma TrimSuffix_append (body : string) :
  TrimSuffix_LF (body ++ String LF EmptyString)%string = body.
Proof.
  induction body as [|c body IH]; simpl; [reflexivity|].
  rewrite IH. destruct body; reflexivity.
Qed.

(** One pass of the loop on a line that is neither blank nor a comment. *)
Lemma next_loop_field_line (fuel : nat) (body rest : string) (op : Operation)
      (started : bool) (err : option error) :
  one_line body = true ->
  body <> EmptyString ->
  HasPrefix_colon body = false ->
  SSE.next_loop U (S fuel) (body ++ String LF rest)%string op started err
  = let sections := SplitN_colon_2 body in
    let field := nth 0 sections EmptyString in
    let value :=
      if Nat.eqb (length sections) 2
      then TrimPrefix_space (nth 1 sections EmptyString)
      else EmptyString in
    if String.eqb field "id" then
      SSE.next_loop U fuel rest (SSE.setID value op) true None
    else if String.eqb field "event" then
      SSE.next_loop U fuel rest (SSE.setEvent value op) true None
    else if String.eqb field "data" then
      let '(data, failed) := U value (Data op) in
      SSE.next_loop U fuel rest (SSE.setData data op) true
                    (if failed then Some ErrInvalidEvent else None)
    else SSE.next_loop U fuel rest op true None.
Proof.
  intros Hone Hne Hcolon. simpl.
  rewrite (ReadString_append body rest Hone), TrimSuffix_append, Hcolon.
  destruct body as [|c body]; [congruence|].
  simpl. destruct (Ascii.eqb c LF) eqn:Hc.
  - unfold one_line in Hone. simpl in Hone. rewrite Hc in Hone. discriminate.
  - reflexivity.
Qed.

(** One pass of the loop on a comment. *)
Lemma next_loop_comment (fuel : nat) (c rest : string) (op : Operation)
      (started : bool) (err : option error) :
  one_line c = true ->
  SSE.next_loop U (S fuel) (String ":"%char c ++ String LF rest)%string op started err
  = SSE.next_loop U fuel rest op started None.
Proof.
  intros Hone.
  assert (H : one_line (String ":"%char c) = true) by exact Hone.
  change (String ":"%char c ++ String LF rest)%string
    with ((String ":"%char c) ++ String LF rest)%string.
  cbn [SSE.next_loop].
  rewrite (ReadString_append _ rest H), TrimSuffix_append.
  reflexivity.
Qed.

End DecoderProgress.

(** X5.  [next] returns on every input, and its error tells whether the
    operation is valid: the error is [ErrInvalidEvent] exactly when
    [Validate] refuses the operation it leaves, and an operation returned
    without error has an event, and a payload unless the event is [reset]
    or [live]. *)
Theorem next_reports_invalid_operations
        (U : string -> option OperationData -> option OperationData * bool)
        (d : SSE.decoder) (op : Operation) :
  exists e op' d',
    SSE.next U d op = Some (e, op', d')
    /\ (e = Some ErrInvalidEvent <-> Validate op' = false)
    /\ (e = None ->
        Event op' <> EmptyString
        /\ (Data op' <> None \/ Event op' = "reset" \/ Event op' = "live")).
Proof.
  destruct (next_cases U d op) as (e & op' & d' & H & C).
  exists e, op', d'. split; [exact H|]. split.
  - destruct C as [[-> V]|[[-> V]|[-> V]]]; split; congruence.
  - intros ->. apply Validate_spelled_out.
    destruct C as [[_ V]|[[E _]|[E _]]]; congruence.
Qed.

(** X6.  A call of [next] reads a prefix of the input and leaves the rest.
    It leaves less than it found or nothing at all, it leaves less when it
    returns no error, and nothing when it returns [ErrConnectionClosed]:
    calling it again and again comes to the end of the input. *)
Theorem next_makes_progress
        (U : string -> option OperationData -> option OperationData * bool)
        (d : SSE.decoder) (op : Operation) :
  exists e op' d' consumed,
    SSE.next U d op = Some (e, op', d')
    /\ d = (consumed ++ d')%string
    /\ (d' = EmptyString \/ (String.length d' < String.length d)%nat)
    /\ (e = None -> (String.length d' < String.length d)%nat)
    /\ (e = Some ErrConnectionClosed -> d' = EmptyString).
Proof.
  destruct (next_returns U d op) as [[[e op'] d'] H].
  destruct (next_id U d op e op' d' H) as (consumed & E & _ & _).
  exists e, op', d', consumed. split; [exact H|]. split; [exact E|].
  unfold SSE.next in H.
  destruct (SSE.next_loop U _ d _ false None) as [[[e0 op0] d0]|] eqn:L;
    [|discriminate].
  injection H as He Hop Hd. subst op0 d0.
  destruct (next_loop_progress U _ _ _ _ _ _ _ _ L) as (A & B & C).
  destruct (next_loop_error U _ _ _ _ _ _ _ _ L) as [->| ->].
  - split; [exact A|]. split; [intros _; now apply C|].
    intros ->. unfold SSE.next_checks in He.
    destruct (String.eqb (Event op') EmptyString);
      destruct (negb (Validate op')); discriminate.
  - split; [exact A|]. split; [|intros _; now apply B].
    intros ->. unfold SSE.next_checks in He.
    destruct (negb (Validate op')); discriminate.
Qed.

Lemma unlines_cons_append (l : string) (ls : list string) (rest : string) :
  (Strings.unlines (l :: ls) ++ rest)%string
  = (l ++ String Strings.LF (Strings.unlines ls ++ rest))%string.
Proof. simpl. now rewrite append_assoc. Qed.

Lemma next_loop_boundary
      (U : string -> option OperationData -> option OperationData * bool)
      (fuel : nat) (rest : string) (op : Operation) (err : option error) :
  SSE.next_loop U (S fuel) (String Strings.LF rest) op true err
  = Some (None, op, rest).
Proof. reflexivity. Qed.

Lemma next_loop_blank
      (U : string -> option OperationData -> option OperationData * bool)
      (fuel : nat) (rest : string) (op : Operation) (err : option error) :
  SSE.next_loop U (S fuel) (String Strings.LF rest) op false err
  = SSE.next_loop U fuel rest op false None.
Proof. reflexivity. Qed.

(** X7.  A record of the wire is decoded into the operation it describes
    and the input that follows it is left untouched: for an id, an event
    and a payload text without line feed, the event not empty and the
    payload accepted by the decoder of payloads, the lines [id], [event]
    and [data] and the blank line give the operation with that id, that
    event and the decoded payload; without [data] line, the events [reset]
    and [live] give the operation without payload. *)
Theorem next_decodes_a_wire_record
        (U : string -> option OperationData -> option OperationData * bool)
        (id ev : string) (rest : string) (op : Operation) :
  one_line id = true ->
  one_line ev = true ->
  (forall (json : string) (p : OperationData),
      one_line json = true ->
      ev <> EmptyString ->
      U json None = (Some p, false) ->
      SSE.next U (wire_record id ev (Some json) ++ rest)%string op
      = Some (None, {| ID := id; Event := ev; Data := Some p |}, rest))
  /\ (ev = "reset" \/ ev = "live" ->
      SSE.next U (wire_record id ev None ++ rest)%string op
      = Some (None, {| ID := id; Event := ev; Data := None |}, rest)).
Proof.
  intros Hid Hev.
  assert (Pid : forall fuel tail o st er,
             SSE.next_loop U (S fuel)
               (("id: " ++ id) ++ String Strings.LF tail)%string o st er
             = SSE.next_loop U fuel tail (SSE.setID id o) true None).
  { intros. rewrite next_loop_field_line;
      [reflexivity | exact Hid | discriminate | reflexivity]. }
  assert (Pev : forall fuel tail o st er,
             SSE.next_loop U (S fuel)
               (("event: " ++ ev) ++ String Strings.LF tail)%string o st er
             = SSE.next_loop U fuel tail (SSE.setEvent ev o) true None).
  { intros. rewrite next_loop_field_line;
      [reflexivity | exact Hev | discriminate | reflexivity]. }
  split.
  - intros json p Hjson Hne HU.
    assert (Pdata : forall fuel tail o st er,
               Data o = None ->
               SSE.next_loop U (S fuel)
                 (("data: " ++ json) ++ String Strings.LF tail)%string o st er
               = SSE.next_loop U fuel tail (SSE.setData (Some p) o) true None).
    { intros fuel tail o st er Ho. rewrite next_loop_field_line;
        [| exact Hjson | discriminate | reflexivity].
      cbn. rewrite Ho, HU. reflexivity. }
    unfold SSE.next, wire_record.
    rewrite !unlines_cons_append.
    assert (L : SSE.next_loop U 4
                  (("id: " ++ id) ++
                   String Strings.LF
                     (("event: " ++ ev) ++
                      String Strings.LF
                        (("data: " ++ json) ++
                         String Strings.LF
                           (EmptyString ++
                            String Strings.LF
                              (Strings.unlines [] ++ rest)))))%string
                  (SSE.setData None (SSE.setEvent EmptyString op)) false None
                = Some (None, {| ID := id; Event := ev; Data := Some p |}, rest)).
    { rewrite Pid, Pev, Pdata by reflexivity. reflexivity. }
    rewrite (next_loop_fuel U 4 _ _ _ _ _ _ L);
      [|rewrite length_append; simpl; lia].
    unfold SSE.next_checks, Validate. simpl.
    apply String.eqb_neq in Hne. now rewrite Hne.
  - intros Hctl.
    unfold SSE.next, wire_record.
    rewrite !unlines_cons_append.
    assert (L : SSE.next_loop U 3
                  (("id: " ++ id) ++
                   String Strings.LF
                     (("event: " ++ ev) ++
                      String Strings.LF
                        (EmptyString ++
                         String Strings.LF
                           (Strings.unlines [] ++ rest))))%string
                  (SSE.setData None (SSE.setEvent EmptyString op)) false None
                = Some (None, {| ID := id; Event := ev; Data := None |}, rest)).
    { rewrite Pid, Pev. reflexivity. }
    rewrite (next_loop_fuel U 3 _ _ _ _ _ _ L);
      [|rewrite length_append; simpl; lia].
    unfold SSE.next_checks, Validate. simpl.
    destruct Hctl as [-> | ->]; reflexivity.
Qed.

Lemma next_decodes_a_wire_record_witness :
  SSE.next SSE.Unmarshal_minimal
           (wire_record "1424" "insert" (Some "{}") ++ "id: 1425")%string
           {| ID := "1423"; Event := "delete"; Data := None |}
  = Some (None,
          {| ID := "1424"; Event := "insert";
             Data := Some {| ObjectID := EmptyString; ObjectType := EmptyString;
                             Ref := EmptyString; Timestamp := 0;
                             Parents := [] |} |},
          "id: 1425")
  /\ SSE.next SSE.Unmarshal_minimal
              (wire_record "1424" "reset" None ++ "id: 1425")%string
              {| ID := "1423"; Event := "delete"; Data := None |}
     = Some (None, {| ID := "1424"; Event := "reset"; Data := None |},
             "id: 1425").
Proof.
  split.
  - apply (proj1 (next_decodes_a_wire_record SSE.Unmarshal_minimal
                    "1424" "insert" "id: 1425"
                    {| ID := "1423"; Event := "delete"; Data := None |}
                    eq_refl eq_refl)
             "{}");
      [reflexivity | discriminate | reflexivity].
  - apply (proj2 (next_decodes_a_wire_record SSE.Unmarshal_minimal
                    "1424" "reset" "id: 1425"
                    {| ID := "1423"; Event := "delete"; Data := None |}
                    eq_refl eq_refl)).
    now left.
Defined.

(** X8.  Comments and blank lines ahead of a record are skipped: [next]
    returns on an input that starts with a comment line, or with a blank
    line, what it returns on the input that follows that line. *)
Theorem next_skips_comments_and_blank_lines
        (U : string -> option OperationData -> option OperationData * bool)
        (d : SSE.decoder) (op : Operation) :
  (forall c : string,
      one_line c = true ->
      SSE.next U (String ":"%char c ++ String Strings.LF d)%string op
      = SSE.next U d op)
  /\ SSE.next U (String Strings.LF d) op = SSE.next U d op.
Proof.
  split.
  - intros c Hc. unfold SSE.next.
    change (String.length (String ":"%char c ++ String Strings.LF d)%string)
      with (S (String.length (c ++ String Strings.LF d)%string)).
    rewrite next_loop_comment by exact Hc.
    rewrite (next_loop_enough U (S (String.length (c ++ String Strings.LF d)%string))
                              (S (String.length d)));
      [reflexivity | rewrite length_append; simpl; lia | lia].
  - unfold SSE.next.
    change (String.length (String Strings.LF d)) with (S (String.length d)).
    now rewrite next_loop_blank.
Qed.

Lemma next_skips_comments_and_blank_lines_witness :
  SSE.next SSE.Unmarshal_minimal
           (String ":"%char " keep alive" ++ String Strings.LF
              (wire_record "7" "live" None))%string
           {| ID := EmptyString; Event := EmptyString; Data := None |}
  = SSE.next SSE.Unmarshal_minimal (wire_record "7" "live" None)
             {| ID := EmptyString; Event := EmptyString; Data := None |}.
Proof.
  apply (proj1 (next_skips_comments_and_blank_lines SSE.Unmarshal_minimal
                  (wire_record "7" "live" None)
                  {| ID := EmptyString; Event := EmptyString; Data := None |})
           " keep alive").
  reflexivity.
Defined.

Section LastValueWins.
Import Strings.

Variable U : string -> option OperationData -> option OperationData * bool.

(** [event_line] in the terms of the loop of [next]. *)
Lemma event_line_field (l : string) :
  event_line l
  = if String.eqb (nth 0 (SplitN_colon_2 l) EmptyString) "event"
    then Some (if Nat.eqb (length (SplitN_colon_2 l)) 2
               then TrimPrefix_space (nth 1 (SplitN_colon_2 l) EmptyString)
               else EmptyString)
    else None.
Proof.
  unfold event_line.
  destruct (SplitN_shape l) as [[a ->]|[a [b ->]]]; reflexivity.
Qed.

Lemma comment_is_no_event_line (l : string) :
  HasPrefix_colon l = true -> event_line l = None.
Proof.
  destruct l as [|c l]; simpl; [discriminate|].
  intros H. unfold event_line. simpl. now rewrite H.
Qed.

(** One more line in front of the text read, for the id and the event. *)
Lemma extend_consumed_fields (d line d1 d' c2 idres id0 id1 evres ev0 ev1 : string) :
  ReadString d = (line, None, d1) ->
  d1 = (c2 ++ d')%string ->
  closed c2 d' ->
  idres = most_recent_id c2 id1 ->
  evres = most_recent_event c2 ev1 ->
  id1 = id_after id0 (TrimSuffix_LF line) ->
  ev1 = event_after ev0 (TrimSuffix_LF line) ->
  exists consumed,
    d = (consumed ++ d')%string
    /\ closed consumed d'
    /\ idres = most_recent_id consumed id0
    /\ evres = most_recent_event consumed ev0.
Proof.
  intros R E C I V J W.
  destruct (ReadString_line d line d1 R) as (Ed & _ & _ & L).
  exists (line ++ c2)%string. repeat split.
  - now rewrite append_assoc, <- E.
  - destruct C as [C|C]; [left | now right].
    intros x. now rewrite append_assoc, !L, C.
  - unfold most_recent_id. rewrite L. simpl. now rewrite I, J.
  - unfold most_recent_event. rewrite L. simpl. now rewrite V, W.
Qed.

Lemma next_loop_fields (fuel : nat) (d : SSE.decoder) (op : Operation)
      (started : bool) (err : option error)
      (e : option error) (op' : Operation) (d' : SSE.decoder) :
  SSE.next_loop U fuel d op started err = Some (e, op', d') ->
  exists consumed,
    d = (consumed ++ d')%string
    /\ closed consumed d'
    /\ ID op' = most_recent_id consumed (ID op)
    /\ Event op' = most_recent_event consumed (Event op).
Proof.
  revert d op started err.
  induction fuel as [|fuel IH]; intros d op started err H; [discriminate|].
  simpl in H. destruct (ReadString d) as [[line rerr] d1] eqn:R.
  destruct rerr as [x|].
  - injection H as _ <- <-.
    destruct (ReadString_eof d line d1 x R) as (-> & C).
    exists d. repeat split.
    + now rewrite append_nil_r.
    + now right.
    + unfold most_recent_id. now rewrite C.
    + unfold most_recent_event. now rewrite C.
  - assert (Step : forall op1 started1 err1,
               SSE.next_loop U fuel d1 op1 started1 err1 = Some (e, op', d') ->
               ID op1 = id_after (ID op) (TrimSuffix_LF line) ->
               Event op1 = event_after (Event op) (TrimSuffix_LF line) ->
               exists consumed,
                 d = (consumed ++ d')%string
                 /\ closed consumed d'
                 /\ ID op' = most_recent_id consumed (ID op)
                 /\ Event op' = most_recent_event consumed (Event op)).
    { intros op1 started1 err1 H1 J W.
      destruct (IH _ _ _ _ H1) as (c2 & E & C & I & V).
      exact (extend_consumed_fields d line d1 d' c2 _ _ _ _ _ _ R E C I V J W). }
    destruct (String.eqb_spec line (String LF EmptyString)) as [Hnl|Hnl].
    + assert (J : ID op = id_after (ID op) (TrimSuffix_LF line))
        by (now rewrite Hnl).
      assert (W : Event op = event_after (Event op) (TrimSuffix_LF line))
        by (now rewrite Hnl).
      destruct started.
      * injection H as _ <- <-.
        apply (extend_consumed_fields d line d1 d1 EmptyString
                 (ID op) (ID op) (ID op) (Event op) (Event op) (Event op));
          [exact R | reflexivity | left; reflexivity | reflexivity
           | reflexivity | exact J | exact W].
      * exact (Step _ _ _ H J W).
    + destruct (HasPrefix_colon (TrimSuffix_LF line)) eqn:Hc.
      * apply (Step _ _ _ H).
        -- unfold id_after. now rewrite comment_is_no_id_line.
        -- unfold event_after. now rewrite comment_is_no_event_line.
      * pose proof (id_line_field (TrimSuffix_LF line)) as F.
        pose proof (event_line_field (TrimSuffix_LF line)) as G.
        destruct (String.eqb_spec
                    (nth 0 (SplitN_colon_2 (TrimSuffix_LF line)) EmptyString)
                    "id") as [Eid|Eid].
        { apply (Step _ _ _ H).
          - unfold id_after. now rewrite F.
          - unfold event_after. rewrite G, Eid. reflexivity. }
        destruct (String.eqb_spec
                    (nth 0 (SplitN_colon_2 (TrimSuffix_LF line)) EmptyString)
                    "event") as [Eev|Eev].
        { apply (Step _ _ _ H).
          - unfold id_after. now rewrite F.
          - unfold event_after. now rewrite G. }
        destruct (String.eqb
                    (nth 0 (SplitN_colon_2 (TrimSuffix_LF line)) EmptyString)
                    "data").
        { destruct (U _ (Data op)) as [data failed].
          apply (Step _ _ _ H).
          - unfold id_after. now rewrite F.
          - unfold event_after. now rewrite G. }
        apply (Step _ _ _ H).
        -- unfold id_after. now rewrite F.
        -- unfold event_after. now rewrite G.
Qed.

End LastValueWins.

(** X9.  The last value of a field wins.  Whatever [next] returns, the text
    it has read is a prefix of the input; the id of the operation is the
    value of the last [id] line of that text, the id of the scratch
    operation when there is none; its event is the value of the last
    [event] line of that text, the empty text when there is none. *)
Theorem next_keeps_the_last_value_of_a_field
        (U : string -> option OperationData -> option OperationData * bool)
        (d : SSE.decoder) (op : Operation) :
  exists e op' d' consumed,
    SSE.next U d op = Some (e, op', d')
    /\ d = (consumed ++ d')%string
    /\ ID op' = most_recent_id consumed (ID op)
    /\ Event op' = most_recent_event consumed EmptyString.
Proof.
  destruct (next_returns U d op) as [[[e op'] d'] H].
  exists e, op', d'.
  pose proof H as H'. unfold SSE.next in H'.
  destruct (SSE.next_loop U _ d _ false None) as [[[e0 op0] d0]|] eqn:L;
    [|discriminate].
  injection H' as _ Hop Hd. subst op0 d0.
  destruct (next_loop_fields U _ _ _ _ _ _ _ _ L) as (consumed & E & _ & I & V).
  exists consumed. repeat split; assumption.
Qed.

(** ** Subscribe *)

Lemma Split_comma_not_nil (s : string) : Split_comma s <> [].
Proof.
  induction s as [|c s IH]; simpl; [discriminate|].
  destruct (Ascii.eqb c ","%char); [discriminate|].
  destruct (Split_comma s); discriminate.
Qed.

Lemma Join_Split_comma (s : string) : Join_comma (Split_comma s) = s.
Proof.
  induction s as [|c s IH]; simpl; [reflexivity|].
  destruct (Ascii.eqb_spec c ","%char) as [->|Hc].
  - pose proof (Split_comma_not_nil s) as Hn.
    simpl. destruct (Split_comma s) as [|a l]; [congruence|].
    now rewrite IH.
  - pose proof (Split_comma_not_nil s) as Hn.
    destruct (Split_comma s) as [|a l]; [congruence|].
    destruct l as [|b l]; simpl in *; now rewrite <- IH.
Qed.

(** X10.  The consumer that [oplog-tail] subscribes: the URL is followed by
    [?parents=] and the flag [-parents] when that flag is not empty, then by
    [types=] and the flag [-types] when that one is not empty, after a [?]
    or, when the parents are there, a [&]; with both flags empty the URL is
    left as it is.  The consumer starts without position, not saved, not
    processing, with an empty ledger whose mutex is free. *)
Theorem Subscribe_builds_the_query
        (u types parents : string) (file password : string) (repl : bool) :
  let c := Subscribe u {| StateFile := file; AllowReplication := repl;
                          Password := password;
                          OptFilter := tail_filter types parents |} in
  url c
  = (u ++ ((if String.eqb parents EmptyString then EmptyString
            else "?parents=" ++ parents)
           ++ (if String.eqb types EmptyString then EmptyString
               else (if String.eqb parents EmptyString then "?" else "&")
                    ++ "types=" ++ types)))%string
  /\ lastId c = EmptyString /\ saved c = false /\ processing c = false
  /\ ife c = Ledger.newInFlightEvents.
Proof.
  simpl. repeat split.
  unfold Subscribe, subscribed, query_string, tail_filter. simpl.
  f_equal.
  rewrite !Join_Split_comma.
  pose proof (Split_comma_not_nil parents) as Hp.
  pose proof (Split_comma_not_nil types) as Ht.
  destruct (Split_comma parents) as [|p lp]; [congruence|].
  destruct (Split_comma types) as [|t lt]; [congruence|].
  simpl.
  destruct (String.eqb parents EmptyString); simpl;
    destruct (String.eqb types EmptyString); simpl;
    rewrite ?append_assoc, ?append_nil_r; reflexivity.
Qed.

(** ** connect and the stream *)

(** X11.  [connect] changes nothing of the consumer but the body: the URL,
    the options, the position, the flags and the ledger are as before.
    Whenever it returns an error the body is the empty stream, and an
    error of the transport is returned as it is. *)
Theorem connect_changes_the_body_only (t : RoundTrip) (c : Consumer) :
  fst (connect t c) = set_body (body (fst (connect t c))) c
  /\ (snd (connect t c) <> None -> body (fst (connect t c)) = EmptyString)
  /\ (forall e, t = NewRequestFails e \/ t = DoFails e ->
                snd (connect t c) = Some e).
Proof.
  unfold connect. destruct t as [e|e|res]; simpl.
  - repeat split; auto. intros e' [H|H]; congruence.
  - repeat split; auto. intros e' [H|H]; congruence.
  - destruct (negb _ && negb _); simpl;
      [|destruct (_ || _); simpl; [|destruct (negb _); simpl]];
      repeat split; auto; try congruence;
      intros e' [H|H]; discriminate.
Qed.

Lemma connect_changes_the_body_only_witness :
  body (fst (connect (DoFails (ErrExternal "connection refused"))
                     (set_body "id: 1" (subscribed "http://oplog" no_options))))
  = EmptyString
  /\ snd (connect (DoFails (ErrExternal "connection refused"))
                  (set_body "id: 1" (subscribed "http://oplog" no_options)))
     = Some (ErrExternal "connection refused").
Proof.
  split.
  - apply (proj1 (proj2 (connect_changes_the_body_only
                           (DoFails (ErrExternal "connection refused"))
                           (set_body "id: 1" (subscribed "http://oplog" no_options))))).
    discriminate.
  - apply (proj2 (proj2 (connect_changes_the_body_only
                           (DoFails (ErrExternal "connection refused"))
                           (set_body "id: 1" (subscribed "http://oplog" no_options))))).
    now right.
Defined.

(** X12.  The first [connect] of [readStream] drops its error: nothing is
    sent on [errs] and the loop goes on to decode.  After a [connect] that
    failed, a decoder on the body of the consumer returns an error at the
    first call, having read nothing: the read loop then reports that error
    and retries. *)
Theorem failed_connect_leaves_an_empty_stream
        (U : string -> option OperationData -> option OperationData * bool)
        (t : RoundTrip) (s : System) (op : Operation) :
  reading s = AtFirstConnect ->
  snd (connect t (consumer s)) <> None ->
  exists s',
    step (Connect t) s = Steps s'
    /\ reported s' = reported s
    /\ reading s' = AtNext
    /\ SSE.next U (SSE.newDecoder (body (consumer s'))) op
       = Some (Some ErrInvalidEvent,
               {| ID := ID op; Event := EmptyString; Data := None |},
               EmptyString).
Proof.
  intros Hat Herr. unfold step, step_Connect. rewrite Hat.
  pose proof (connect_changes_the_body_only t (consumer s)) as (_ & B & _).
  specialize (B Herr).
  destruct (connect t (consumer s)) as [c err]. simpl in *.
  eexists. split; [reflexivity|]. simpl. rewrite B.
  repeat split.
Qed.

Lemma failed_connect_leaves_an_empty_stream_witness :
  exists s',
    step (Connect (Responds {| StatusCode := 401; LastEventID := EmptyString;
                               ResponseBody := "denied" |}))
         (with_reading AtFirstConnect
            (streaming (subscribed "http://oplog" no_options)))
    = Steps s'
    /\ reported s' = []
    /\ reading s' = AtNext
    /\ SSE.next SSE.Unmarshal_minimal (SSE.newDecoder (body (consumer s')))
                {| ID := "3"; Event := "insert"; Data := None |}
       = Some (Some ErrInvalidEvent,
               {| ID := "3"; Event := EmptyString; Data := None |},
               EmptyString).
Proof.
  apply (failed_connect_leaves_an_empty_stream SSE.Unmarshal_minimal
           (Responds {| StatusCode := 401; LastEventID := EmptyString;
                        ResponseBody := "denied" |})
           (with_reading AtFirstConnect
              (streaming (subscribed "http://oplog" no_options)))
           {| ID := "3"; Event := "insert"; Data := None |}).
  - reflexivity.
  - discriminate.
Defined.

(** ** The state file *)

Lemma digits_are_hex (s : string) :
  all_chars is_digit s = true -> all_chars is_hex s = true.
Proof.
  induction s as [|c s IH]; simpl; [reflexivity|].
  intros H. apply andb_true_iff in H as [Hc H].
  rewrite (IH H). unfold is_hex. now rewrite Hc.
Qed.

(** X13.  A state file that holds a character other than [0-9] and [a-f]
    (a final line feed, for one), or that is longer than 13 characters
    without being 24 characters long, is refused: [loadLastEventID]
    returns its content with the error of invalid state data. *)
Theorem loadLastEventID_refuses_other_contents
        (fs : string -> StateFileStatus) (c : Consumer) (content : string) :
  StateFile (options c) <> EmptyString ->
  fs (StateFile (options c)) = Content content ->
  all_chars is_hex content = false
  \/ ((13 < String.length content)%nat /\ String.length content <> 24%nat) ->
  loadLastEventID fs c = (content, Some ErrInvalidStateData).
Proof.
  intros Hp Hfs Hbad. unfold loadLastEventID.
  apply String.eqb_neq in Hp. rewrite Hp, Hfs.
  destruct (state_pattern content) eqn:E; [|reflexivity].
  exfalso. apply state_pattern_spelled_out in E.
  destruct E as [[L D]|[L D]]; destruct Hbad as [H|[H1 H2]];
    try lia; try congruence.
  apply digits_are_hex in D. congruence.
Qed.

Lemma loadLastEventID_refuses_other_contents_witness :
  loadLastEventID (fun _ => Content (Strings.unlines ["1424"]))
    (subscribed "http://oplog"
       {| StateFile := "state"; AllowReplication := false;
          Password := EmptyString;
          OptFilter := {| Types := []; FilterParents := [] |} |})
  = (Strings.unlines ["1424"], Some ErrInvalidStateData).
Proof.
  apply (loadLastEventID_refuses_other_contents
           (fun _ => Content (Strings.unlines ["1424"]))
           (subscribed "http://oplog"
              {| StateFile := "state"; AllowReplication := false;
                 Password := EmptyString;
                 OptFilter := {| Types := []; FilterParents := [] |} |})).
  - discriminate.
  - reflexivity.
  - left. reflexivity.
Defined.

(** X14.  What [saveLastEventID] has written is what [loadLastEventID]
    reads: after a write that succeeds, with a path for the state file, the
    load returns the id saved, without error when the id matches the
    pattern of the state file and with the error of invalid state data
    when it does not; the other paths of the file system are as before. *)
Theorem save_then_load (fs : string -> StateFileStatus) (c : Consumer)
        (id : string) :
  StateFile (options c) <> EmptyString ->
  snd (saveLastEventID Written fs c id) = None
  /\ loadLastEventID (fst (saveLastEventID Written fs c id)) c
     = (id, if state_pattern id then None else Some ErrInvalidStateData)
  /\ (forall p, p <> StateFile (options c) ->
                fst (saveLastEventID Written fs c id) p = fs p).
Proof.
  intros Hp. simpl. split; [reflexivity|]. split.
  - unfold loadLastEventID, fs_set.
    apply String.eqb_neq in Hp. rewrite Hp, String.eqb_refl.
    now destruct (state_pattern id).
  - intros p Hne. unfold fs_set.
    apply String.eqb_neq in Hne. now rewrite Hne.
Qed.

Lemma save_then_load_witness :
  loadLastEventID
    (fst (saveLastEventID Written (fun _ => NotExist)
            (subscribed "http://oplog"
               {| StateFile := "state"; AllowReplication := false;
                  Password := EmptyString;
                  OptFilter := {| Types := []; FilterParents := [] |} |})
            "1424"))
    (subscribed "http://oplog"
       {| StateFile := "state"; AllowReplication := false;
          Password := EmptyString;
          OptFilter := {| Types := []; FilterParents := [] |} |})
  = ("1424", if state_pattern "1424" then None else Some ErrInvalidStateData).
Proof.
  apply (save_then_load (fun _ => NotExist)
           (subscribed "http://oplog"
              {| StateFile := "state"; AllowReplication := false;
                 Password := EmptyString;
                 OptFilter := {| Types := []; FilterParents := [] |} |})
           "1424").
  discriminate.
Defined.

(** ** The periodic saving of the position *)

(** X15.  A tick whose write succeeds never changes the position; it marks
    the position as saved exactly when the position has not moved since the
    tick read it, and the state file then holds the position.  A tick that
    finds the position saved does nothing. *)
Theorem tick_marks_saved_what_is_on_disk
        (fs : string -> StateFileStatus) (c : Consumer) (read : string) :
  let fs' := fst (fst (tick_write Written read fs c)) in
  let c' := snd (fst (tick_write Written read fs c)) in
  snd (tick_write Written read fs c) = []
  /\ lastId c' = lastId c
  /\ (saved c' = true <-> read = lastId c)
  /\ (saved c' = true -> fs' (StateFile (options c')) = Content (lastId c'))
  /\ (saved c = true -> forall w, tick w fs c = (fs, c, [])).
Proof.
  simpl. repeat split.
  - intros H. now apply String.eqb_eq.
  - intros ->. apply String.eqb_refl.
  - intros H. apply String.eqb_eq in H. subst read.
    unfold fs_set. now rewrite String.eqb_refl.
  - intros H w. unfold tick, tick_read. now rewrite H.
Qed.

Lemma tick_marks_saved_what_is_on_disk_witness :
  fst (fst (tick_write Written "1424" (fun _ => NotExist)
              (set_lastId "1424" false
                 (subscribed "http://oplog"
                    {| StateFile := "state"; AllowReplication := false;
                       Password := EmptyString;
                       OptFilter := {| Types := []; FilterParents := [] |} |}))))
      "state"
  = Content "1424".
Proof.
  apply (proj1 (proj2 (proj2 (proj2
           (tick_marks_saved_what_is_on_disk (fun _ => NotExist)
              (set_lastId "1424" false
                 (subscribed "http://oplog"
                    {| StateFile := "state"; AllowReplication := false;
                       Password := EmptyString;
                       OptFilter := {| Types := []; FilterParents := [] |} |}))
              "1424"))))).
  reflexivity.
Defined.

(** X16.  A tick whose write fails sends [ErrWritingState] once and marks
    the position as saved all the same, the position not having moved:
    the ticks that follow write nothing and report nothing, whatever the
    state the file was left in, until the position moves. *)
Theorem failed_write_is_reported_once
        (fs : string -> StateFileStatus) (c : Consumer)
        (e : error) (after : StateFileStatus) :
  saved c = false ->
  let fs' := fst (fst (tick (WriteFails e after) fs c)) in
  let c' := snd (fst (tick (WriteFails e after) fs c)) in
  snd (tick (WriteFails e after) fs c) = [ErrWritingState]
  /\ lastId c' = lastId c
  /\ saved c' = true
  /\ fs' (StateFile (options c)) = after
  /\ (forall w, tick w fs' c' = (fs', c', [])).
Proof.
  intros H. unfold tick, tick_read. rewrite H. simpl.
  rewrite String.eqb_refl. repeat split.
  unfold fs_set. now rewrite String.eqb_refl.
Qed.

Lemma failed_write_is_reported_once_witness :
  snd (tick (WriteFails (ErrExternal "disk full") (Content EmptyString))
            (fun _ => Content "1423")
            (set_lastId "1424" false
               (subscribed "http://oplog"
                  {| StateFile := "state"; AllowReplication := false;
                     Password := EmptyString;
                     OptFilter := {| Types := []; FilterParents := [] |} |})))
  = [ErrWritingState]
  /\ saved (snd (fst (tick (WriteFails (ErrExternal "disk full")
                                       (Content EmptyString))
                           (fun _ => Content "1423")
                           (set_lastId "1424" false
                              (subscribed "http://oplog"
                                 {| StateFile := "state";
                                    AllowReplication := false;
                                    Password := EmptyString;
                                    OptFilter := {| Types := [];
                                                    FilterParents := [] |} |})))))
     = true.
Proof.
  pose proof (failed_write_is_reported_once (fun _ => Content "1423")
                (set_lastId "1424" false
                   (subscribed "http://oplog"
                      {| StateFile := "state"; AllowReplication := false;
                         Password := EmptyString;
                         OptFilter := {| Types := []; FilterParents := [] |} |}))
                (ErrExternal "disk full") (Content EmptyString) eq_refl)
    as (A & _ & B & _).
  split; [exact A | exact B].
Defined.

(** ** Start *)

(** X17.  [Start] panics on a consumer that is processing already.  On
    another consumer without path for the state file it runs, and the
    position is the empty one whatever position the consumer had: a
    position set before [Start] is lost.  With a path and no file, the
    position is ["0"] when the replication is allowed and empty if not.
    The goroutines start with the first connection to make, a delay of one
    second, nothing sent, and the ledger of the consumer. *)
Theorem Start_sets_the_position (fs : string -> StateFileStatus) (c : Consumer) :
  (processing c = true -> Start fs c = Panics)
  /\ (processing c = false ->
      StateFile (options c) = EmptyString
      \/ fs (StateFile (options c)) = NotExist ->
      exists s,
        Start fs c = Running s
        /\ lastId (consumer s)
           = (if String.eqb (StateFile (options c)) EmptyString
              then EmptyString
              else if AllowReplication (options c) then "0" else EmptyString)
        /\ processing (consumer s) = true
        /\ saved (consumer s) = saved c
        /\ ife (consumer s) = ife c
        /\ reading s = AtFirstConnect /\ acking s = AtSelect
        /\ backoff s = Second
        /\ sent s = [] /\ reported s = [] /\ slept s = []).
Proof.
  split.
  - intros H. unfold Start. now rewrite H.
  - intros H Hfs. unfold Start, loadLastEventID. rewrite H. simpl.
    destruct (String.eqb_spec (StateFile (options c)) EmptyString) as [E|E].
    + eexists. split; [reflexivity|]. simpl. repeat split.
    + destruct Hfs as [Hfs|Hfs]; [congruence|]. rewrite Hfs.
      eexists. split; [reflexivity|]. simpl. repeat split.
Qed.

Lemma Start_sets_the_position_witness :
  Start (fun _ => NotExist)
        (set_processing true (subscribed "http://oplog" no_options))
  = Panics
  /\ (exists s,
        Start (fun _ => NotExist)
              (set_lastId "0" false (subscribed "http://oplog" no_options))
        = Running s
        /\ lastId (consumer s) = EmptyString).
Proof.
  split.
  - apply (proj1 (Start_sets_the_position (fun _ => NotExist)
                    (set_processing true (subscribed "http://oplog" no_options)))).
    reflexivity.
  - destruct (proj2 (Start_sets_the_position (fun _ => NotExist)
                       (set_lastId "0" false
                          (subscribed "http://oplog" no_options)))
                    eq_refl (or_introl eq_refl))
      as (s & R & L & _).
    exists s. split; [exact R | exact L].
Defined.

(** X18.  The position that a tick has saved is the position of the next
    start: after a tick whose write succeeds, [Start] on a new consumer
    with the same options runs with that position when it matches the
    pattern of the state file; when it does not, [Start] never returns: it
    waits on [errs] with the error of invalid state data, which no one can
    receive. *)
Theorem saved_position_is_resumed
        (fs : string -> StateFileStatus) (c : Consumer) (u : string) :
  saved c = false ->
  StateFile (options c) <> EmptyString ->
  let fs' := fst (fst (tick Written fs c)) in
  (state_pattern (lastId c) = true ->
   exists s,
     Start fs' (subscribed u (options c)) = Running s
     /\ lastId (consumer s) = lastId c)
  /\ (state_pattern (lastId c) = false ->
      Start fs' (subscribed u (options c)) = BlocksOnErrs ErrInvalidStateData).
Proof.
  intros Hs Hp. unfold tick, tick_read. rewrite Hs. simpl.
  unfold Start, loadLastEventID, fs_set. simpl.
  apply String.eqb_neq in Hp. rewrite Hp, String.eqb_refl.
  split; intros Hpat; rewrite Hpat; simpl.
  - eexists. split; reflexivity.
  - reflexivity.
Qed.

Lemma saved_position_is_resumed_witness :
  (exists s,
      Start (fst (fst (tick Written (fun _ => NotExist)
                         (set_lastId "1424" false
                            (subscribed "http://oplog"
                               {| StateFile := "state"; AllowReplication := false;
                                  Password := EmptyString;
                                  OptFilter := {| Types := [];
                                                  FilterParents := [] |} |})))))
            (subscribed "http://other"
               {| StateFile := "state"; AllowReplication := false;
                  Password := EmptyString;
                  OptFilter := {| Types := []; FilterParents := [] |} |})
      = Running s
      /\ lastId (consumer s) = "1424")
  /\ Start (fst (fst (tick Written (fun _ => NotExist)
                        (set_lastId "evt-1" false
                           (subscribed "http://oplog"
                              {| StateFile := "state"; AllowReplication := false;
                                 Password := EmptyString;
                                 OptFilter := {| Types := [];
                                                 FilterParents := [] |} |})))))
           (subscribed "http://other"
              {| StateFile := "state"; AllowReplication := false;
                 Password := EmptyString;
                 OptFilter := {| Types := []; FilterParents := [] |} |})
     = BlocksOnErrs ErrInvalidStateData.
Proof.
  split.
  - apply (proj1 (saved_position_is_resumed (fun _ => NotExist)
                    (set_lastId "1424" false
                       (subscribed "http://oplog"
                          {| StateFile := "state"; AllowReplication := false;
                             Password := EmptyString;
                             OptFilter := {| Types := [];
                                             FilterParents := [] |} |}))
                    "http://other" eq_refl ltac:(discriminate))).
    reflexivity.
  - apply (proj2 (saved_position_is_resumed (fun _ => NotExist)
                    (set_lastId "evt-1" false
                       (subscribed "http://oplog"
                          {| StateFile := "state"; AllowReplication := false;
                             Password := EmptyString;
                             OptFilter := {| Types := [];
                                             FilterParents := [] |} |}))
                    "http://other" eq_refl ltac:(discriminate))).
    reflexivity.
Defined.

(** ** Invariants of the goroutines *)

(** A property that every step keeps is kept by every run. *)
Lemma run_invariant (I : System -> Prop) :
  (forall e s s', I s -> step e s = Steps s' -> I s') ->
  forall es s s', I s -> run es s = Steps s' -> I s'.
Proof.
  intros Hstep es. induction es as [|e es IH]; intros s s' Hs Hrun; simpl in *.
  - now injection Hrun as <-.
  - destruct (step e s) as [s1| | |] eqn:E; try discriminate.
    exact (IH s1 s' (Hstep e s s1 Hs E) Hrun).
Qed.

(** What a step does to the ledger and to the operations sent: a push, a
    pull, or nothing but, for the acknowledgement of a reset, the release of
    the mutex. *)
Lemma step_shape (e : event) (s s' : System) :
  step e s = Steps s' ->
  (ledger_ids s' = ledger_ids s /\ sent s' = sent s
   /\ (ledger_locked s' = ledger_locked s \/ ledger_locked s' = false))
  \/ (exists op,
        e = Push /\ reading s = AtPush op /\ ledger_locked s = false
        /\ ledger_ids s' = Ledger.ids (Ledger.push (ID op) (ife (consumer s)))
        /\ sent s' = sent s ++ [op]
        /\ ledger_locked s' = is_reset op)
  \/ (exists op,
        e = Pull /\ acking s = AtPull op /\ ledger_locked s = false
        /\ ledger_ids s'
           = Ledger.ids (snd (Ledger.pull (ID op) (ife (consumer s))))
        /\ sent s' = sent s
        /\ ledger_locked s' = false).
Proof.
  unfold ledger_ids, ledger_locked.
  intros H. destruct e as [t|err op| |t|op| ]; simpl in H.
  - left. unfold step_Connect in H. destruct (reading s); try discriminate.
    pose proof (connect_keeps t (consumer s)) as (K & _).
    destruct (connect t (consumer s)) as [c o]. injection H as <-.
    simpl in *. rewrite K. auto.
  - left. unfold step_NextReturns in H. destruct (reading s); try discriminate.
    destruct err; injection H as <-; simpl; auto.
  - right. left. unfold step_Push in H.
    destruct (reading s) as [| |op|] eqn:R; try discriminate.
    destruct (Ledger.mu (ife (consumer s))) eqn:M; try discriminate.
    injection H as <-. exists op. simpl.
    repeat split.
    + now destruct (is_reset op).
    + destruct (is_reset op); simpl; [reflexivity|].
      unfold Ledger.push.
      now destruct (Ledger.already_in (ID op) (Ledger.ids (ife (consumer s)))).
  - left. unfold step_Retry in H. destruct (reading s); try discriminate.
    simpl in H.
    pose proof (connect_keeps t (consumer s)) as (K & _).
    destruct (connect t (consumer s)) as [c [err|]];
      injection H as <-; simpl in *; rewrite K; auto.
  - left. unfold step_Ack in H. destruct (acking s); try discriminate.
    destruct (is_reset op).
    + destruct (Ledger.mu (ife (consumer s))); try discriminate.
      injection H as <-. simpl. auto.
    + injection H as <-. simpl. auto.
  - right. right. unfold step_Pull in H.
    destruct (acking s) as [|op] eqn:A; try discriminate.
    destruct (Ledger.mu (ife (consumer s))) eqn:M; try discriminate.
    exists op. unfold Ledger.pull in *.
    destruct (Ledger.pull_from 0 (ID op) (Ledger.ids (ife (consumer s))))
      as [idx rest].
    injection H as <-. simpl.
    destruct (idx =? 0); simpl; repeat split; auto.
Qed.

(** What a step does to the ledger and to the operation that waits to be
    pushed: the ledger gains at most the id of that operation, and the
    operation that waits afterwards waited before or comes out of the
    decoder with this step. *)
Lemma step_decoded (e : event) (s s1 : System) :
  step e s = Steps s1 ->
  incl (ledger_ids s1) (ledger_ids s ++ map ID (pending s))
  /\ incl (pending s1) (pending s ++ decoded [e]).
Proof.
  unfold ledger_ids, pending. intros E.
  assert (Nil : forall (A : Type) (l : list A), incl [] l)
    by (intros A l x []).
  destruct e as [t|err op| |t|op| ]; simpl in E.
  - unfold step_Connect in E. destruct (reading s) eqn:R; try discriminate.
    pose proof (connect_keeps t (consumer s)) as (K & _).
    destruct (connect t (consumer s)) as [c o]. injection E as <-.
    simpl in *. rewrite K.
    split; [apply incl_appl, incl_refl | apply Nil].
  - unfold step_NextReturns in E. destruct (reading s) eqn:R; try discriminate.
    destruct err; injection E as <-; simpl; rewrite ?R;
      (split; [apply incl_appl, incl_refl
              | first [apply Nil | apply incl_refl]]).
  - unfold step_Push in E. destruct (reading s) eqn:R; try discriminate.
    destruct (Ledger.mu (ife (consumer s))); try discriminate.
    injection E as <-. simpl. split; [|apply Nil].
    assert (P : incl (Ledger.ids (Ledger.push (ID op) (ife (consumer s))))
                     (Ledger.ids (ife (consumer s)) ++ [ID op])).
    { unfold Ledger.push.
      destruct (Ledger.already_in (ID op) (Ledger.ids (ife (consumer s))));
        simpl; [apply incl_appl, incl_refl | apply incl_refl]. }
    now destruct (is_reset op).
  - unfold step_Retry in E. destruct (reading s) eqn:R; try discriminate.
    simpl in E.
    pose proof (connect_keeps t (consumer s)) as (K & _).
    destruct (connect t (consumer s)) as [c [err|]];
      injection E as <-; simpl in *; rewrite ?R, K;
      (split; [apply incl_appl, incl_refl | apply Nil]).
  - unfold step_Ack in E. destruct (acking s); try discriminate.
    destruct (is_reset op);
      [destruct (Ledger.mu (ife (consumer s))); try discriminate|];
      injection E as <-; simpl;
      (split; apply incl_appl, incl_refl).
  - unfold step_Pull in E. destruct (acking s); try discriminate.
    destruct (Ledger.mu (ife (consumer s))); try discriminate.
    pose proof (pull_from_subset 0 (ID op) (Ledger.ids (ife (consumer s)))) as I.
    unfold Ledger.pull in E.
    destruct (Ledger.pull_from 0 (ID op) (Ledger.ids (ife (consumer s))))
      as [idx rest].
    injection E as <-. simpl in *.
    split; [|apply incl_appl, incl_refl].
    destruct (idx =? 0); simpl; intros x Hx; apply in_or_app; left; now apply I.
Qed.

(** X19.  In every run of a system whose ledger has no duplicate, the
    ledger has no duplicate, and it holds only ids that it held at first
    and ids of operations that came out of the decoder without error, the
    one that waited to be pushed at first or those of the run: no id enters
    the ledger but through the decoder. *)
Theorem ledger_holds_ids_of_decoded_operations (es : list event) (s s' : System) :
  NoDup (ledger_ids s) ->
  run es s = Steps s' ->
  NoDup (ledger_ids s')
  /\ incl (ledger_ids s')
          (ledger_ids s ++ map ID (pending s ++ decoded es)).
Proof.
  intros Hnd Hrun. split.
  - refine (run_invariant (fun s => NoDup (ledger_ids s)) _ es s s' Hnd Hrun).
    clear. intros e s s' Hnd Hstep.
    destruct (step_shape e s s' Hstep)
      as [(L & _)|[(op & _ & _ & _ & L & _)|(op & _ & _ & _ & L & _)]];
      rewrite L.
    + exact Hnd.
    + now apply push_NoDup.
    + unfold Ledger.pull.
      pose proof (pull_from_NoDup 0 (ID op) _ Hnd) as N.
      unfold ledger_ids in *.
      now destruct (Ledger.pull_from 0 (ID op) (Ledger.ids (ife (consumer s)))).
  - clear Hnd. revert s Hrun.
    induction es as [|e es IH]; intros s Hrun.
    + simpl in Hrun. injection Hrun as <-. apply incl_appl, incl_refl.
    + simpl in Hrun.
      destruct (step e s) as [s1| | |] eqn:E; try discriminate.
      destruct (step_decoded e s s1 E) as [L P].
      specialize (IH s1 Hrun).
      assert (D : decoded (e :: es) = decoded [e] ++ decoded es)
        by (unfold decoded; simpl; now rewrite app_nil_r).
      rewrite D. clear D.
      intros x Hx. apply IH in Hx. clear IH.
      rewrite !map_app in *. rewrite !in_app_iff in *.
      destruct Hx as [Hx|[Hx|Hx]].
      * apply L in Hx. rewrite in_app_iff in Hx. tauto.
      * apply in_map_iff in Hx as (o & <- & Ho).
        apply P in Ho. rewrite in_app_iff in Ho.
        destruct Ho as [Ho|Ho]; [right; left | right; right; left];
          now apply in_map.
      * tauto.
Qed.

Lemma ledger_holds_ids_of_decoded_operations_witness :
  exists s',
    run (deliver {| ID := "1"; Event := "insert"; Data := None |}
         ++ deliver {| ID := "1"; Event := "update"; Data := None |}
         ++ acknowledge {| ID := "2"; Event := "insert"; Data := None |})
        (streaming (subscribed "http://oplog" no_options))
    = Steps s'
    /\ NoDup (ledger_ids s')
    /\ incl (ledger_ids s')
            (ledger_ids (streaming (subscribed "http://oplog" no_options))
             ++ map ID
                  (pending (streaming (subscribed "http://oplog" no_options))
                   ++ decoded
                        (deliver {| ID := "1"; Event := "insert"; Data := None |}
                         ++ deliver {| ID := "1"; Event := "update"; Data := None |}
                         ++ acknowledge {| ID := "2"; Event := "insert";
                                           Data := None |}))).
Proof.
  destruct (run (deliver {| ID := "1"; Event := "insert"; Data := None |}
                 ++ deliver {| ID := "1"; Event := "update"; Data := None |}
                 ++ acknowledge {| ID := "2"; Event := "insert"; Data := None |})
                (streaming (subscribed "http://oplog" no_options)))
    as [s'| | |] eqn:E; try (vm_compute in E; discriminate).
  exists s'. split; [reflexivity|].
  apply (ledger_holds_ids_of_decoded_operations
           (deliver {| ID := "1"; Event := "insert"; Data := None |}
            ++ deliver {| ID := "1"; Event := "update"; Data := None |}
            ++ acknowledge {| ID := "2"; Event := "insert"; Data := None |})
           (streaming (subscribed "http://oplog" no_options)) s');
    [simpl; constructor | exact E].
Defined.

Lemma delay_in_bounds (k : nat) : sleep_in_bounds (delay k).
Proof.
  unfold sleep_in_bounds.
  do 5 (destruct k as [|k]; [vm_compute; split; discriminate|]).
  unfold delay.
  replace (Nat.ltb (S (S (S (S (S k))))) 5) with false by reflexivity.
  vm_compute. split; discriminate.
Qed.

(** X21.  In every run of a system that starts with a delay of one second
    and has not slept yet, pushes and acknowledgements included, every sleep
    of the read loop lasts between 1 and 32 seconds, and the doubling of the
    delay never overflows. *)
Theorem every_sleep_is_in_bounds (es : list event) (s s' : System) :
  backoff s = Second ->
  slept s = [] ->
  run es s = Steps s' ->
  Forall sleep_in_bounds (slept s') /\ sleep_in_bounds (backoff s').
Proof.
  intros Hb Hs Hrun.
  assert (G : (exists k, backoff s' = delay k)
              /\ Forall sleep_in_bounds (slept s')).
  { refine (run_invariant
              (fun s => (exists k, backoff s = delay k)
                        /\ Forall sleep_in_bounds (slept s))
              _ es s s' _ Hrun).
    - clear. intros e s s' [[k Hk] Hall] Hstep.
      destruct (is_push e) eqn:P.
      + destruct e; try discriminate. simpl in Hstep.
        unfold step_Push in Hstep. destruct (reading s); try discriminate.
        destruct (Ledger.mu _); try discriminate. injection Hstep as <-.
        simpl. split; [now exists 0%nat | exact Hall].
      + pose proof (step_backoff e s s' P Hstep) as K.
        destruct (is_retry e); destruct K as [K1 K2]; rewrite K1, K2.
        * split.
          -- exists (S k). now rewrite Hk, double_backoff_delay.
          -- apply Forall_app. split; [exact Hall|].
             constructor; [|constructor]. rewrite Hk. apply delay_in_bounds.
        * split; [now exists k | exact Hall].
    - split; [now exists 0%nat | rewrite Hs; constructor]. }
  destruct G as [[k Hk] Hall]. split; [exact Hall|].
  rewrite Hk. apply delay_in_bounds.
Qed.

Lemma every_sleep_is_in_bounds_witness :
  exists s',
    run failures_then_retries (streaming (subscribed "http://oplog" no_options))
    = Steps s'
    /\ Forall sleep_in_bounds (slept s')
    /\ sleep_in_bounds (backoff s').
Proof.
  destruct (run failures_then_retries
                (streaming (subscribed "http://oplog" no_options)))
    as [s'| | |] eqn:E; try (vm_compute in E; discriminate).
  exists s'. split; [reflexivity|].
  apply (every_sleep_is_in_bounds failures_then_retries
           (streaming (subscribed "http://oplog" no_options)) s');
    [reflexivity | reflexivity | exact E].
Defined.

(** X22.  A reset must be acknowledged once: when the mutex of the ledger
    is held and the loop has handled the acknowledgement of a reset, a
    second acknowledgement of a reset makes the runtime abort the program,
    as the mutex is not locked any more; so does the acknowledgement of a
    reset while no reset holds the mutex. *)
Theorem second_reset_acknowledgement_is_fatal (s : System) (r r' : Operation) :
  acking s = AtSelect ->
  is_reset r = true -> is_reset r' = true ->
  (ledger_locked s = true -> run (acknowledge r ++ [Ack r']) s = Fatal)
  /\ (ledger_locked s = false -> step (Ack r) s = Fatal).
Proof.
  unfold ledger_locked. intros Hat Hr Hr'. split; intros Hmu.
  - unfold acknowledge. simpl. unfold step_Ack. rewrite Hat, Hr, Hmu.
    unfold step_Pull. simpl.
    destruct (Ledger.pull (ID r) _) as [idx l] eqn:P.
    assert (M : Ledger.mu l = false).
    { unfold Ledger.pull in P. simpl in P.
      destruct (Ledger.pull_from 0 (ID r) _). now injection P as _ <-. }
    unfold step_Ack. simpl. rewrite Hr'.
    destruct (idx =? 0); simpl; now rewrite M.
  - unfold step, step_Ack. now rewrite Hat, Hr, Hmu.
Qed.

Lemma second_reset_acknowledgement_is_fatal_witness :
  run (acknowledge {| ID := "2"; Event := "reset"; Data := None |}
       ++ [Ack {| ID := "2"; Event := "reset"; Data := None |}])
      (streaming (set_ife {| Ledger.mu := true; Ledger.ids := ["2"] |}
                    (subscribed "http://oplog" no_options)))
  = Fatal.
Proof.
  apply (proj1 (second_reset_acknowledgement_is_fatal
                  (streaming (set_ife {| Ledger.mu := true; Ledger.ids := ["2"] |}
                                (subscribed "http://oplog" no_options)))
                  {| ID := "2"; Event := "reset"; Data := None |}
                  {| ID := "2"; Event := "reset"; Data := None |}
                  eq_refl eq_refl eq_refl)).
  reflexivity.
Defined.


